(** * Factory method and composite demos: a shallow embedding

    The Go source holds two independent packages in one file:

    - [factoryMethod]: a [Phone] struct with a [status] and an [os] string,
      embedded in [Android] and [Google], behind the [IPhone] interface;
    - [composite]: five structs ([Division], [Brigade], [Platoon], [Squad],
      [Enlisted]) behind the [Soldier] interface, the first four holding a
      slice of [Soldier] values.

    Every method has a pointer receiver and every constructor returns a
    pointer, so the composite is a graph of heap objects: the same pointer
    can be stored in several slices.  The composite is therefore modelled
    over an explicit heap; the phone, which holds no pointer, is modelled
    by passing its record.  [fmt.Println] is modelled as appending one line
    to the standard output. *)

From Stdlib Require Import DecimalString.
From stdpp Require Import base tactics option list relations strings.

Set Warnings "-register-all".

(** ** Standard output *)

Definition stdout := list string.

(** [fmt.Println(s)] with a single string argument writes the line [s]. *)
Definition Println (s : string) (out : stdout) : stdout := out ++ [s].

(** The verb [%d] of [fmt.Sprintf] applied to a slice length. *)
Definition fmt_d (n : nat) : string := NilZero.string_of_uint (Nat.to_uint n).

(** ** Package factoryMethod *)

Module factoryMethod.

Record Phone := mkPhone { status : string; os : string }.

Definition GetOS (p : Phone) : string := os p.

Definition TurnOn (p : Phone) (out : stdout) : Phone * stdout :=
  if String.eqb (status p) "on" then (p, out)
  else (mkPhone "on" (os p), Println "Turning phone on" out).

Definition TurnOff (p : Phone) (out : stdout) : Phone * stdout :=
  if String.eqb (status p) "off" then (p, out)
  else (mkPhone "off" (os p), Println "Turning phone off" out).

(** Struct embedding: [Android] and [Google] hold a [Phone] and get its
    methods by promotion. *)
Record Android := mkAndroid { Android_Phone : Phone }.
Record Google := mkGoogle { Google_Phone : Phone }.

(** A value of the interface [IPhone] built by this package. *)
Inductive IPhone :=
| IPhone_Android (a : Android)
| IPhone_Google (g : Google).

Definition NewAndroid : IPhone :=
  IPhone_Android (mkAndroid (mkPhone "off" "android")).

Definition NewGoogle : IPhone :=
  IPhone_Google (mkGoogle (mkPhone "off" "google")).

(** The embedded [Phone] the promoted methods act on. *)
Definition phone_of (i : IPhone) : Phone :=
  match i with
  | IPhone_Android a => Android_Phone a
  | IPhone_Google g => Google_Phone g
  end.

Definition with_phone (i : IPhone) (p : Phone) : IPhone :=
  match i with
  | IPhone_Android _ => IPhone_Android (mkAndroid p)
  | IPhone_Google _ => IPhone_Google (mkGoogle p)
  end.

(** Method calls through the interface. *)
Definition IPhone_GetOS (i : IPhone) : string := GetOS (phone_of i).

Definition IPhone_TurnOn (i : IPhone) (out : stdout) : IPhone * stdout :=
  let '(p, out') := TurnOn (phone_of i) out in (with_phone i p, out').

Definition IPhone_TurnOff (i : IPhone) (out : stdout) : IPhone * stdout :=
  let '(p, out') := TurnOff (phone_of i) out in (with_phone i p, out').

(** A client's sequence of toggles. *)
Inductive toggle := DoTurnOn | DoTurnOff.

Definition call (c : toggle) (i : IPhone) (out : stdout) : IPhone * stdout :=
  match c with
  | DoTurnOn => IPhone_TurnOn i out
  | DoTurnOff => IPhone_TurnOff i out
  end.

Fixpoint calls (cs : list toggle) (i : IPhone) (out : stdout) : IPhone * stdout :=
  match cs with
  | [] => (i, out)
  | c :: cs' => let '(i', out') := call c i out in calls cs' i' out'
  end.

(** The lines a call added to the output. *)
Definition emitted (before after : stdout) : nat := length after - length before.

End factoryMethod.

(** ** Package composite *)

Module composite.

(** A value of the interface [Soldier] is a pointer to one of the five
    structs: an address in the heap.  The spec's input domain is strings
    and node references, so the nil interface value is left out. *)
Definition Soldier := nat.

Inductive object :=
| Division (name : string) (brigades : list Soldier)
| Brigade (name : string) (platoons : list Soldier)
| Platoon (name : string) (squads : list Soldier)
| Squad (name : string) (enlistees : list Soldier)
| Enlisted (name : string).

(** The heap: the object at address [s] is [h !! s]; allocation appends. *)
Abbreviation heap := (list object).

(** Outcome of a call: normal return, a dereference of an address that
    holds no object, or a call stack deeper than the given bound. *)
Inductive result (A : Type) :=
| Ok (a : A)
| Panic
| StackOverflow.
Arguments Ok {A} a.
Arguments Panic {A}.
Arguments StackOverflow {A}.

Definition bind {A B} (m : result A) (k : A → result B) : result B :=
  match m with
  | Ok a => k a
  | Panic => Panic
  | StackOverflow => StackOverflow
  end.

Notation "'let*' x := m 'in' k" := (bind m (λ x, k))
  (at level 10, x name, m at level 100, k at level 200).

(** *** Constructors: [make([]Soldier, 0)] is the empty slice. *)

Definition alloc (o : object) (h : heap) : Soldier * heap := (length h, h ++ [o]).

Definition NewDivision (name : string) : heap → Soldier * heap := alloc (Division name []).
Definition NewBrigade (name : string) : heap → Soldier * heap := alloc (Brigade name []).
Definition NewPlatoon (name : string) : heap → Soldier * heap := alloc (Platoon name []).
Definition NewSquad (name : string) : heap → Soldier * heap := alloc (Squad name []).
Definition NewEnlisted (name : string) : heap → Soldier * heap := alloc (Enlisted name).

(** *** Add: [append] to the receiver's slice; empty body on [Enlisted]. *)

Definition Add (s : Soldier) (component : list Soldier) (h : heap) : result heap :=
  match h !! s with
  | None => Panic
  | Some (Division name brigades) => Ok (<[s := Division name (brigades ++ component)]> h)
  | Some (Brigade name platoons) => Ok (<[s := Brigade name (platoons ++ component)]> h)
  | Some (Platoon name squads) => Ok (<[s := Platoon name (squads ++ component)]> h)
  | Some (Squad name enlistees) => Ok (<[s := Squad name (enlistees ++ component)]> h)
  | Some (Enlisted name) => Ok h
  end.

(** *** Brief

    The five methods, each over the call [c.Brief(orders)] on an interface
    value, which dispatches on the object [c] points to. *)

Section Methods.
Variable orders : string.
Variable Soldier_Brief : Soldier → stdout → result stdout.

(** [for _, c := range l { c.Brief(orders) }] *)
Fixpoint range (l : list Soldier) (out : stdout) : result stdout :=
  match l with
  | [] => Ok out
  | c :: l' => let* out' := Soldier_Brief c out in range l' out'
  end.

Definition Division_Brief (brigades : list Soldier) (out : stdout) : result stdout :=
  let message := ("Briefing " +:+ fmt_d (length brigades) +:+ " Brigades")%string in
  let* out' := range brigades out in
  Ok (Println message out').

Definition Brigade_Brief (platoons : list Soldier) (out : stdout) : result stdout :=
  let message := ("Briefing " +:+ fmt_d (length platoons) +:+ " Platoons")%string in
  let* out' := range platoons out in
  Ok (Println message out').

Definition Platoon_Brief (squads : list Soldier) (out : stdout) : result stdout :=
  let message := ("Briefing " +:+ fmt_d (length squads) +:+ " Squads")%string in
  let* out' := range squads out in
  Ok (Println message out').

Definition Squad_Brief (enlistees : list Soldier) (out : stdout) : result stdout :=
  let message := ("Briefing " +:+ fmt_d (length enlistees) +:+ " Enlistees")%string in
  let* out' := range enlistees out in
  Ok (Println message out').

Definition Enlisted_Brief (out : stdout) : result stdout :=
  Ok (Println orders out).
End Methods.

(** [Brief depth h orders s out] runs [s.Brief(orders)] in heap [h] with
    room for [depth] nested calls. *)
Fixpoint Brief (depth : nat) (h : heap) (orders : string) (s : Soldier)
    (out : stdout) : result stdout :=
  match depth with
  | 0 => StackOverflow
  | S d =>
      match h !! s with
      | None => Panic
      | Some (Division _ brigades) => Division_Brief (Brief d h orders) brigades out
      | Some (Brigade _ platoons) => Brigade_Brief (Brief d h orders) platoons out
      | Some (Platoon _ squads) => Platoon_Brief (Brief d h orders) squads out
      | Some (Squad _ enlistees) => Squad_Brief (Brief d h orders) enlistees out
      | Some (Enlisted _) => Enlisted_Brief orders out
      end
  end.

(** [s.Brief(orders)] never returns: every bound on the stack is exceeded. *)
Definition diverges (h : heap) (orders : string) (s : Soldier) : Prop :=
  ∀ depth out, Brief depth h orders s out = StackOverflow.

(** *** The four container structs seen uniformly *)

Inductive rank := RDivision | RBrigade | RPlatoon | RSquad.

Definition container (k : rank) (name : string) (cs : list Soldier) : object :=
  match k with
  | RDivision => Division name cs
  | RBrigade => Brigade name cs
  | RPlatoon => Platoon name cs
  | RSquad => Squad name cs
  end.

Definition New (k : rank) (name : string) : heap → Soldier * heap :=
  match k with
  | RDivision => NewDivision name
  | RBrigade => NewBrigade name
  | RPlatoon => NewPlatoon name
  | RSquad => NewSquad name
  end.

(** What a container calls its children in its summary. *)
Definition plural (k : rank) : string :=
  match k with
  | RDivision => "Brigades"
  | RBrigade => "Platoons"
  | RPlatoon => "Squads"
  | RSquad => "Enlistees"
  end.

Definition summary (k : rank) (n : nat) : string :=
  ("Briefing " +:+ fmt_d n +:+ " " +:+ plural k)%string.

Definition children (o : object) : list Soldier :=
  match o with
  | Division _ l | Brigade _ l | Platoon _ l | Squad _ l => l
  | Enlisted _ => []
  end.

(** *** Trees

    The tree a structure unfolds to, as the spec's data model has it: a
    node is a container with an ordered sequence of children, or a leaf. *)

Inductive tree :=
| Leaf (name : string)
| Node (k : rank) (name : string) (ts : list tree).

(** [repr h s t]: followed from [s], the objects of [h] unfold to [t]. *)
Inductive repr (h : heap) : Soldier → tree → Prop :=
| repr_Leaf s name :
    h !! s = Some (Enlisted name) → repr h s (Leaf name)
| repr_Node s k name cs ts :
    h !! s = Some (container k name cs) →
    Forall2 (repr h) cs ts →
    repr h s (Node k name ts).

(** Number of levels of a tree, and its height in edges. *)
Fixpoint levels (t : tree) : nat :=
  match t with
  | Leaf _ => 1
  | Node _ _ ts => S (foldr (λ t' m, levels t' `max` m) 0 ts)
  end.

Definition height (t : tree) : nat := levels t - 1.

Fixpoint leaves (t : tree) : nat :=
  match t with
  | Leaf _ => 1
  | Node _ _ ts => foldr (λ t' n, leaves t' + n) 0 ts
  end.

(** The notifications of a broadcast, told apart by who emits them. *)
Inductive note :=
| LeafNote (text : string)
| SummaryNote (text : string).

Definition text (n : note) : string :=
  match n with LeafNote s | SummaryNote s => s end.

(** The spec's broadcast: children in insertion order, each recursively,
    then the container's summary with the count of its direct children. *)
Fixpoint notes (orders : string) (t : tree) : list note :=
  match t with
  | Leaf _ => [LeafNote orders]
  | Node k _ ts =>
      foldr (λ t' r, notes orders t' ++ r) [] ts ++ [SummaryNote (summary k (length ts))]
  end.

(** The lines the broadcast writes. *)
Definition lines (orders : string) (t : tree) : list string := text <$> notes orders t.

(** Building a tree through the public interface: the node is constructed,
    then its children, which are then added in one call. *)
Fixpoint build (t : tree) (h : heap) : result (Soldier * heap) :=
  match t with
  | Leaf name => Ok (NewEnlisted name h)
  | Node k name ts =>
      let '(s, h1) := New k name h in
      let* r :=
        (fix build_all (ts : list tree) (h : heap) : result (list Soldier * heap) :=
           match ts with
           | [] => Ok ([], h)
           | t' :: ts' =>
               let* r1 := build t' h in
               let* r2 := build_all ts' (snd r1) in
               Ok (fst r1 :: fst r2, snd r2)
           end) ts h1 in
      let* h2 := Add s (fst r) (snd r) in
      Ok (s, h2)
  end.

(** *** The object graph *)

Definition child_at (h : heap) (p : Soldier) (i : nat) : option Soldier :=
  match h !! p with
  | Some o => children o !! i
  | None => None
  end.

Definition child (h : heap) (p c : Soldier) : Prop := ∃ i, child_at h p i = Some c.

Definition ancestor (h : heap) : relation Soldier := tc (child h).

(** Every stored pointer is the address of an object. *)
Definition closed (h : heap) : Prop := ∀ p c, child h p c → c < length h.

(** No node is its own ancestor. *)
Definition acyclic (h : heap) : Prop := ∀ s, ¬ ancestor h s s.

(** A node is held once, by one container. *)
Definition single_owner (h : heap) : Prop :=
  ∀ p1 i1 p2 i2 c,
    child_at h p1 i1 = Some c → child_at h p2 i2 = Some c → p1 = p2 ∧ i1 = i2.

Definition tree_shaped (h : heap) : Prop := closed h ∧ acyclic h ∧ single_owner h.

(** Heaps a client can reach: any sequence of constructor calls and of
    [Add] calls on, and with, pointers it has obtained. *)
Inductive reachable : heap → Prop :=
| reachable_start : reachable []
| reachable_New k name h :
    reachable h → reachable (snd (New k name h))
| reachable_NewEnlisted name h :
    reachable h → reachable (snd (NewEnlisted name h))
| reachable_Add s component h h' :
    reachable h →
    s < length h →
    Forall (λ c, c < length h) component →
    Add s component h = Ok h' →
    reachable h'.

(** The loop of [build] over the children, by itself. *)
Definition build_all : list tree → heap → result (list Soldier * heap) :=
  fix build_all (ts : list tree) (h : heap) : result (list Soldier * heap) :=
    match ts with
    | [] => Ok ([], h)
    | t' :: ts' =>
        let* r1 := build t' h in
        let* r2 := build_all ts' (snd r1) in
        Ok (fst r1 :: fst r2, snd r2)
    end.

(** [build] allocates a block [ext] at the end of the heap, and the tree is
    represented wherever that block sits at the same addresses. *)
Definition built (t : tree) (h : heap) (s : Soldier) (h' : heap) : Prop :=
  s = length h ∧
  ∃ ext, h' = h ++ ext ∧
    ∀ pre post : heap, length pre = length h → repr (pre ++ ext ++ post) s t.

(** The texts of the leaf notifications among the notes of a broadcast. *)
Definition leaf_texts (l : list note) : list string :=
  omap (λ n, match n with LeafNote s => Some s | SummaryNote _ => None end) l.

(** *** Client programs *)

(** The example scenario of the spec: the five nodes are constructed from
    the top, each is added to the one above, and the division is briefed. *)
Definition scenario_heap : result (Soldier * heap) :=
  let '(division, h) := NewDivision "1st" [] in
  let '(brigade, h) := NewBrigade "A" h in
  let '(platoon, h) := NewPlatoon "1" h in
  let '(squad, h) := NewSquad "alpha" h in
  let '(smith, h) := NewEnlisted "Smith" h in
  let '(jones, h) := NewEnlisted "Jones" h in
  let* h := Add division [brigade] h in
  let* h := Add brigade [platoon] h in
  let* h := Add platoon [squad] h in
  let* h := Add squad [smith; jones] h in
  Ok (division, h).

Definition scenario (depth : nat) : result stdout :=
  let* r := scenario_heap in
  Brief depth (snd r) "Move out" (fst r) [].

Definition scenario_tree : tree :=
  Node RDivision "1st"
    [Node RBrigade "A"
       [Node RPlatoon "1"
          [Node RSquad "alpha" [Leaf "Smith"; Leaf "Jones"]]]].

(** A division added to itself. *)
Definition self_added : result (Soldier * heap) :=
  let '(division, h) := NewDivision "1st" [] in
  let* h := Add division [division] h in
  Ok (division, h).

(** A brigade and a platoon added to each other. *)
Definition added_to_each_other : result (Soldier * heap) :=
  let '(brigade, h) := NewBrigade "A" [] in
  let '(platoon, h) := NewPlatoon "1" h in
  let* h := Add brigade [platoon] h in
  let* h := Add platoon [brigade] h in
  Ok (brigade, h).

(** One enlisted soldier added twice to a squad, and that squad added to two
    platoons of the same brigade. *)
Definition shared : result (Soldier * heap) :=
  let '(brigade, h) := NewBrigade "A" [] in
  let '(platoon1, h) := NewPlatoon "1" h in
  let '(platoon2, h) := NewPlatoon "2" h in
  let '(squad, h) := NewSquad "alpha" h in
  let '(smith, h) := NewEnlisted "Smith" h in
  let* h := Add squad [smith; smith] h in
  let* h := Add platoon1 [squad] h in
  let* h := Add platoon2 [squad] h in
  let* h := Add brigade [platoon1; platoon2] h in
  Ok (brigade, h).

(** *** Further notions for the properties below *)

(** The same object under another name. *)
Definition rename (f : string → string) (o : object) : object :=
  match o with
  | Division name l => Division (f name) l
  | Brigade name l => Brigade (f name) l
  | Platoon name l => Platoon (f name) l
  | Squad name l => Squad (f name) l
  | Enlisted name => Enlisted (f name)
  end.

(** Number of nodes of a tree. *)
Fixpoint size (t : tree) : nat :=
  match t with
  | Leaf _ => 1
  | Node _ _ ts => S (foldr (λ t' n, size t' + n) 0 ts)
  end.

(** [chain h s p]: [p] lists the nodes met from [s] along child pointers. *)
Inductive chain (h : heap) : Soldier → list Soldier → Prop :=
| chain_end s : chain h s [s]
| chain_step s c p : child h s c → chain h c p → chain h s (s :: p).

(** Two outcomes that differ, if at all, in lines that are the order [o1]
    on one side and the order [o2] on the other. *)
Definition alike (o1 o2 : string) (r1 r2 : result stdout) : Prop :=
  match r1, r2 with
  | Ok l1, Ok l2 => Forall2 (λ x y, x = y ∨ (x = o1 ∧ y = o2)) l1 l2
  | Panic, Panic => True
  | StackOverflow, StackOverflow => True
  | _, _ => False
  end.

(** *** The traversal of a briefing

    The calls of a briefing form a tree: one visit for each call of
    [Brief], labelled with the node the call is on; a node held at several
    entries of children sequences is visited once for each of them. *)

Inductive visit :=
| Visit (s : Soldier) (vs : list visit).

(** [traversal h s v]: briefing [s] in heap [h] makes the visits [v]. *)
Inductive traversal (h : heap) : Soldier → visit → Prop :=
| traversal_Visit s o vs :
    h !! s = Some o →
    Forall2 (traversal h) (children o) vs →
    traversal h s (Visit s vs).

(** Deepest nesting of the visits. *)
Fixpoint nesting (v : visit) : nat :=
  match v with
  | Visit _ vs => S (foldr (λ v' m, nesting v' `max` m) 0 vs)
  end.

(** Number of visits to the node [x]. *)
Fixpoint occurrences (x : Soldier) (v : visit) : nat :=
  match v with
  | Visit s vs =>
      (if decide (x = s) then 1 else 0) + foldr (λ v' n, occurrences x v' + n) 0 vs
  end.

(** Number of entries of a children sequence that hold the node [x]. *)
Definition held (x : Soldier) (l : list Soldier) : nat :=
  length (filter (λ c, c = x) l).

(** The notification a node writes itself: the order for an enlisted
    soldier, the summary with the count of its children for a container. *)
Definition own_line (h : heap) (orders : string) (s : Soldier) : string :=
  match h !! s with
  | Some (Division _ l) => summary RDivision (length l)
  | Some (Brigade _ l) => summary RBrigade (length l)
  | Some (Platoon _ l) => summary RPlatoon (length l)
  | Some (Squad _ l) => summary RSquad (length l)
  | Some (Enlisted _) => orders
  | None => ""
  end.

(** The notifications of the visits, in the order of the broadcast, each
    with the node that writes it. *)
Fixpoint written (h : heap) (orders : string) (v : visit) : list (Soldier * string) :=
  match v with
  | Visit s vs =>
      foldr (λ v' r, written h orders v' ++ r) [] vs ++ [(s, own_line h orders s)]
  end.

(** The notifications written by the node [x]. *)
Definition written_by (x : Soldier) (l : list (Soldier * string)) : list (Soldier * string) :=
  filter (λ w, w.1 = x) l.

(** [s] is [c] or one of its ancestors. *)
Definition reaches (h : heap) (s c : Soldier) : Prop := s = c ∨ ancestor h s c.

End composite.

(** * Properties of package factoryMethod *)

Section PhoneProperties.
Import factoryMethod.

Lemma emitted_same (out : stdout) : emitted out out = 0.
Proof. unfold emitted. lia. Qed.

Lemma emitted_Println (s : string) (out : stdout) : emitted out (Println s out) = 1.
Proof. unfold emitted, Println. rewrite length_app. simpl. lia. Qed.

Lemma TurnOn_on (p : Phone) (out : stdout) :
  status p = "on" → TurnOn p out = (p, out).
Proof. intros E. unfold TurnOn. by rewrite E. Qed.

Lemma TurnOn_not_on (p : Phone) (out : stdout) :
  status p ≠ "on" →
  TurnOn p out = (mkPhone "on" (os p), out ++ ["Turning phone on"]).
Proof.
  intros E. unfold TurnOn.
  destruct (String.eqb_spec (status p) "on"); [contradiction | reflexivity].
Qed.

Lemma TurnOff_off (p : Phone) (out : stdout) :
  status p = "off" → TurnOff p out = (p, out).
Proof. intros E. unfold TurnOff. by rewrite E. Qed.

Lemma TurnOff_not_off (p : Phone) (out : stdout) :
  status p ≠ "off" →
  TurnOff p out = (mkPhone "off" (os p), out ++ ["Turning phone off"]).
Proof.
  intros E. unfold TurnOff.
  destruct (String.eqb_spec (status p) "off"); [contradiction | reflexivity].
Qed.

(** After [TurnOn] the phone is on, whatever it was. *)
Lemma TurnOn_status (p : Phone) (out : stdout) : status (TurnOn p out).1 = "on".
Proof.
  unfold TurnOn. destruct (String.eqb_spec (status p) "on"); simpl; done.
Qed.

Lemma TurnOff_status (p : Phone) (out : stdout) : status (TurnOff p out).1 = "off".
Proof.
  unfold TurnOff. destruct (String.eqb_spec (status p) "off"); simpl; done.
Qed.

Lemma TurnOn_os (p : Phone) (out : stdout) : os (TurnOn p out).1 = os p.
Proof. unfold TurnOn. by destruct (String.eqb _ _). Qed.

Lemma TurnOff_os (p : Phone) (out : stdout) : os (TurnOff p out).1 = os p.
Proof. unfold TurnOff. by destruct (String.eqb _ _). Qed.

(** C4, as stated, fails: a phone fresh from [NewAndroid] is off, and two
    calls of [TurnOff] on it emit nothing, not one notification. *)
Lemma TurnOff_twice_fresh_emits_nothing :
  ¬ (∀ (p : Phone) (out : stdout),
       emitted out (TurnOn (TurnOn p out).1 (TurnOn p out).2).2 = 1
       ∧ emitted out (TurnOff (TurnOff p out).1 (TurnOff p out).2).2 = 1).
Proof.
  intros H. destruct (H (phone_of NewAndroid) []) as [_ H2].
  vm_compute in H2. discriminate.
Qed.

(** C4, amended: [TurnOn] emits one notification exactly when it changes
    the status, that is when the phone was not on, and none otherwise; a
    second [TurnOn] in a row is a no-op that emits nothing, so two in a
    row emit one notification when the phone was not on and none when it
    was.  The same holds for [TurnOff] and off. *)
Theorem power_toggle_notifies_on_change_only (p : Phone) (out : stdout) :
  let on1 := TurnOn p out in
  let on2 := TurnOn on1.1 on1.2 in
  let off1 := TurnOff p out in
  let off2 := TurnOff off1.1 off1.2 in
  emitted out on1.2 = (if String.eqb (status p) "on" then 0 else 1)
  ∧ (emitted out on1.2 = 1 ↔ status on1.1 ≠ status p)
  ∧ on2 = on1
  ∧ emitted out on2.2 = (if String.eqb (status p) "on" then 0 else 1)
  ∧ emitted out off1.2 = (if String.eqb (status p) "off" then 0 else 1)
  ∧ (emitted out off1.2 = 1 ↔ status off1.1 ≠ status p)
  ∧ off2 = off1
  ∧ emitted out off2.2 = (if String.eqb (status p) "off" then 0 else 1).
Proof.
  intros on1 on2 off1 off2.
  assert (Hon2 : on2 = on1).
  { subst on2. destruct on1 as [p1 o1] eqn:E. simpl.
    apply TurnOn_on. change p1 with (p1, o1).1. rewrite <- E. apply TurnOn_status. }
  assert (Hoff2 : off2 = off1).
  { subst off2. destruct off1 as [p1 o1] eqn:E. simpl.
    apply TurnOff_off. change p1 with (p1, o1).1. rewrite <- E. apply TurnOff_status. }
  rewrite Hon2, Hoff2. subst on1 off1. clear.
  unfold TurnOn, TurnOff.
  destruct (String.eqb_spec (status p) "on") as [E1|E1];
    destruct (String.eqb_spec (status p) "off") as [E2|E2]; simpl;
    rewrite ?emitted_same, ?emitted_Println;
    repeat split; try done; try congruence.
Qed.

(** C8: whatever toggles are applied to the phone from [NewAndroid] or
    from [NewGoogle], [GetOS] answers as on the fresh phone, "android" and
    "google", and the [os] field keeps its value. *)
Theorem GetOS_fixed_under_toggles (cs : list toggle) (out : stdout) :
  IPhone_GetOS NewAndroid = "android"
  ∧ IPhone_GetOS NewGoogle = "google"
  ∧ IPhone_GetOS (calls cs NewAndroid out).1 = IPhone_GetOS NewAndroid
  ∧ IPhone_GetOS (calls cs NewGoogle out).1 = IPhone_GetOS NewGoogle
  ∧ os (phone_of (calls cs NewAndroid out).1) = os (phone_of NewAndroid)
  ∧ os (phone_of (calls cs NewGoogle out).1) = os (phone_of NewGoogle).
Proof.
  assert (K : ∀ cs i out, os (phone_of (calls cs i out).1) = os (phone_of i)).
  { clear. induction cs as [|c cs IH]; intros i out; [done|].
    simpl. destruct (call c i out) as [i' out'] eqn:E. rewrite IH.
    destruct c; simpl in E.
    - unfold IPhone_TurnOn in E.
      pose proof (TurnOn_os (phone_of i) out) as Ho.
      destruct (TurnOn (phone_of i) out) as [p o]. injection E as <- <-.
      by destruct i.
    - unfold IPhone_TurnOff in E.
      pose proof (TurnOff_os (phone_of i) out) as Ho.
      destruct (TurnOff (phone_of i) out) as [p o]. injection E as <- <-.
      by destruct i. }
  unfold IPhone_GetOS, GetOS. rewrite !K. done.
Qed.

End PhoneProperties.

(** * Properties of package composite *)

Import composite.

(** ** Induction on trees, with the hypothesis for every child *)

Lemma tree_ind_Forall (P : tree → Prop) :
  (∀ name, P (Leaf name)) →
  (∀ k name ts, Forall P ts → P (Node k name ts)) →
  ∀ t, P t.
Proof.
  intros HL HN. fix IH 1. intros [name | k name ts].
  - apply HL.
  - apply HN. induction ts as [|t ts IHts]; constructor; [apply IH | apply IHts].
Qed.

Lemma levels_pos (t : tree) : 0 < levels t.
Proof. destruct t; simpl; lia. Qed.

Lemma levels_height (t : tree) : levels t = S (height t).
Proof. unfold height. pose proof (levels_pos t). lia. Qed.

Lemma object_cases (o : object) :
  (∃ name, o = Enlisted name) ∨ (∃ k name cs, o = container k name cs).
Proof.
  destruct o as [n l | n l | n l | n l | n].
  - right. by exists RDivision, n, l.
  - right. by exists RBrigade, n, l.
  - right. by exists RPlatoon, n, l.
  - right. by exists RSquad, n, l.
  - left. by exists n.
Qed.

Lemma children_container k name cs : children (container k name cs) = cs.
Proof. by destruct k. Qed.

(** ** Brief, method by method *)

Section BriefEquations.
Context (h : heap) (orders : string).

Lemma Brief_Enlisted depth s name out :
  h !! s = Some (Enlisted name) →
  Brief (S depth) h orders s out = Ok (out ++ [orders]).
Proof. intros E. simpl. by rewrite E. Qed.

Lemma Brief_container depth s k name cs out :
  h !! s = Some (container k name cs) →
  Brief (S depth) h orders s out =
    let* out' := range (Brief depth h orders) cs out in
    Ok (out' ++ [summary k (length cs)]).
Proof. intros E. simpl. rewrite E. by destruct k. Qed.

(** When every child, briefed alone, appends its own lines, the loop
    appends them child after child, in the order of the slice. *)
Lemma range_concat (f : Soldier → stdout → result stdout) cs outs out :
  Forall2 (λ c o, ∀ out', f c out' = Ok (out' ++ o)) cs outs →
  range f cs out = Ok (out ++ concat outs).
Proof.
  intros H. revert out. induction H as [|c o cs outs Hc _ IH]; intros out; simpl.
  - by rewrite app_nil_r.
  - rewrite Hc. simpl. rewrite IH. by rewrite <- app_assoc.
Qed.

(** More room on the stack does not change a call that returned. *)
Lemma Brief_mono depth depth' s out r :
  Brief depth h orders s out = Ok r → depth ≤ depth' →
  Brief depth' h orders s out = Ok r.
Proof.
  revert depth' s out r. induction depth as [|d IH]; intros depth' s out r H Hle; [done|].
  destruct depth' as [|d']; [lia|].
  assert (Hr : ∀ cs out r, range (Brief d h orders) cs out = Ok r →
                           range (Brief d' h orders) cs out = Ok r).
  { induction cs as [|c cs IHcs]; intros o1 r1 Hrange; simpl in *; [done|].
    destruct (Brief d h orders c o1) as [o2| |] eqn:E; simpl in Hrange; try done.
    rewrite (IH d' c o1 o2 E) by lia. simpl. auto. }
  destruct (h !! s) as [o|] eqn:E; [|simpl in H; by rewrite E in H].
  destruct (object_cases o) as [[name ->] | (k & name & cs & ->)].
  - rewrite (Brief_Enlisted _ _ _ _ E) in H. by rewrite (Brief_Enlisted _ _ _ _ E).
  - rewrite (Brief_container _ _ _ _ _ _ E) in H. rewrite (Brief_container _ _ _ _ _ _ E).
    destruct (range (Brief d h orders) cs out) as [o2| |] eqn:E2; simpl in H; try done.
    by rewrite (Hr _ _ _ E2).
Qed.

End BriefEquations.

(** ** Brief on a structure that unfolds to a tree *)

Section BriefOnTrees.
Context (h : heap) (orders : string).

Lemma lines_Leaf name : lines orders (Leaf name) = [orders].
Proof. done. Qed.

Lemma lines_Node k name ts :
  lines orders (Node k name ts) = concat (lines orders <$> ts) ++ [summary k (length ts)].
Proof.
  unfold lines. simpl. rewrite fmap_app. f_equal.
  induction ts as [|t ts IH]; simpl; [done|]. by rewrite fmap_app, IH.
Qed.

Lemma levels_Node_le k name ts d :
  levels (Node k name ts) ≤ S d ↔ Forall (λ t, levels t ≤ d) ts.
Proof.
  simpl. induction ts as [|t ts IH]; simpl.
  - split; [constructor | lia].
  - rewrite Forall_cons. split.
    + intros H. split; [lia|]. apply IH. lia.
    + intros [H1 H2]. apply IH in H2. lia.
Qed.

(** With room for as many nested calls as the tree has levels, the call
    returns, having appended the broadcast of the tree. *)
Lemma Brief_repr t :
  ∀ s depth out,
    repr h s t → levels t ≤ depth →
    Brief depth h orders s out = Ok (out ++ lines orders t).
Proof.
  induction t as [name | k name ts IH] using tree_ind_Forall; intros s depth out Hr Hd.
  - inversion Hr; subst. destruct depth as [|d]; [simpl in Hd; lia|].
    erewrite Brief_Enlisted by eassumption. done.
  - inversion Hr as [| s' k' name' cs ts' Hs Hcs]; subst.
    destruct depth as [|d]; [simpl in Hd; lia|].
    apply levels_Node_le in Hd.
    rewrite (Brief_container _ _ _ _ _ _ _ _ Hs).
    rewrite (range_concat _ cs (lines orders <$> ts)).
    + simpl. rewrite lines_Node, (Forall2_length _ _ _ Hcs). by rewrite <- app_assoc.
    + apply Forall2_fmap_r.
      clear Hs Hr. induction Hcs as [|c t cs ts Hc Hcs IHcs]; constructor.
      * intros out'. apply (Forall_inv IH); [done|]. by apply Forall_inv in Hd.
      * apply IHcs; by eapply Forall_inv_tail.
Qed.

(** With less room the stack overflows: the bound is reached. *)
Lemma Brief_repr_overflow t :
  ∀ s depth out,
    repr h s t → depth < levels t →
    Brief depth h orders s out = StackOverflow.
Proof.
  induction t as [name | k name ts IH] using tree_ind_Forall; intros s depth out Hr Hd.
  - destruct depth; [done | simpl in Hd; lia].
  - destruct depth as [|d]; [done|].
    inversion Hr as [| s' k' name' cs ts' Hs Hcs]; subst.
    rewrite (Brief_container _ _ _ _ _ _ _ _ Hs).
    assert (Hex : Exists (λ t, d < levels t) ts).
    { destruct (decide (Forall (λ t, levels t ≤ d) ts)) as [HF | HF].
      - apply (levels_Node_le k name) in HF. lia.
      - apply not_Forall_Exists in HF; [|intros t; apply _].
        eapply Exists_impl; [exact HF|]. simpl. intros; lia. }
    clear Hs Hr Hd.
    enough (Hrange : range (Brief d h orders) cs out = StackOverflow) by (by rewrite Hrange).
    revert out. induction Hcs as [|c t cs ts Hc Hcs IHcs]; intros out.
    + inversion Hex.
    + simpl. destruct (decide (d < levels t)) as [Hlt | Hge].
      * by rewrite (Forall_inv IH c d out Hc Hlt).
      * rewrite (Brief_repr t c d out Hc) by lia. simpl.
        apply IHcs; [by eapply Forall_inv_tail|].
        inversion Hex; subst; [contradiction | done].
Qed.

End BriefOnTrees.

(** ** Add *)

Section AddEquations.
Context (h : heap).

Lemma Add_Enlisted s name xs :
  h !! s = Some (Enlisted name) → Add s xs h = Ok h.
Proof. intros E. unfold Add. by rewrite E. Qed.

Lemma Add_container s k name cs xs :
  h !! s = Some (container k name cs) →
  Add s xs h = Ok (<[s := container k name (cs ++ xs)]> h).
Proof. intros E. unfold Add. rewrite E. by destruct k. Qed.

Lemma Add_allocated s xs : s < length h → ∃ h', Add s xs h = Ok h'.
Proof.
  intros Hs. destruct (lookup_lt_is_Some_2 h s Hs) as [o E].
  destruct (object_cases o) as [[name ->] | (k & name & cs & ->)].
  - exists h. exact (Add_Enlisted _ _ _ E).
  - eexists. exact (Add_container _ _ _ _ _ E).
Qed.

Lemma Add_length s xs h' : Add s xs h = Ok h' → length h' = length h.
Proof.
  unfold Add. destruct (h !! s) as [[]|]; intros E; simplify_eq;
    by rewrite ?length_insert.
Qed.

Lemma Add_other s xs h' p : Add s xs h = Ok h' → p ≠ s → h' !! p = h !! p.
Proof.
  unfold Add. destruct (h !! s) as [[]|]; intros E Hp; simplify_eq;
    try done; by rewrite list_lookup_insert_ne.
Qed.

Lemma Add_nothing s : s < length h → Add s [] h = Ok h.
Proof.
  intros Hs. destruct (lookup_lt_is_Some_2 h s Hs) as [o E].
  destruct (object_cases o) as [[name ->] | (k & name & cs & ->)].
  - exact (Add_Enlisted _ _ _ E).
  - rewrite (Add_container _ _ _ _ _ E), app_nil_r. by rewrite list_insert_id.
Qed.

End AddEquations.

(** ** The object graph under allocation and Add *)

Lemma child_at_Some (h : heap) p i c :
  child_at h p i = Some c ↔ ∃ o, h !! p = Some o ∧ children o !! i = Some c.
Proof.
  unfold child_at. destruct (h !! p) as [o|]; split.
  - intros E. by exists o.
  - intros (o' & E & Hc). by simplify_eq.
  - done.
  - by intros (o' & E & _).
Qed.

Lemma child_parent_allocated (h : heap) p c : child h p c → p < length h.
Proof.
  intros [i Hi]. apply child_at_Some in Hi as (o & E & _).
  by eapply lookup_lt_Some.
Qed.

Lemma alloc_child_at (h : heap) o p i c :
  children o = [] →
  child_at (h ++ [o]) p i = Some c → child_at h p i = Some c.
Proof.
  intros Ho Hc. apply child_at_Some in Hc as (o' & E & Hc).
  apply lookup_app_Some in E as [E | [_ E]].
  - apply child_at_Some. eauto.
  - apply list_lookup_singleton_Some in E as [_ <-]. by rewrite Ho in Hc.
Qed.

Lemma alloc_child (h : heap) o p c :
  children o = [] → child (h ++ [o]) p c → child h p c.
Proof. intros Ho [i Hi]. exists i. by eapply alloc_child_at. Qed.

Lemma alloc_ancestor (h : heap) o a b :
  children o = [] → ancestor (h ++ [o]) a b → ancestor h a b.
Proof.
  intros Ho H. induction H as [a b H | a c b H _ IH].
  - apply tc_once. by eapply alloc_child.
  - eapply tc_l; [by eapply alloc_child | done].
Qed.

Section AddGraph.
Context (h h' : heap) (s : Soldier) (xs : list Soldier).
Hypothesis HAdd : Add s xs h = Ok h'.

(** An entry of a slice after [Add] was there before, or is one of the
    added pointers, placed after the receiver's former children. *)
Lemma Add_child_at p i c :
  child_at h' p i = Some c →
  child_at h p i = Some c
  ∨ (p = s ∧ ∃ o j, h !! s = Some o ∧ i = length (children o) + j ∧ xs !! j = Some c).
Proof.
  intros Hc. destruct (decide (p = s)) as [-> | Hp].
  - apply child_at_Some in Hc as (o' & E' & Hc).
    assert (Hs : s < length h).
    { rewrite <- (Add_length _ _ _ _ HAdd). by eapply lookup_lt_Some. }
    destruct (lookup_lt_is_Some_2 h s Hs) as [o E].
    destruct (object_cases o) as [[name ->] | (k & name & cs & ->)].
    + rewrite (Add_Enlisted _ _ _ xs E) in HAdd. simplify_eq.
      left. apply child_at_Some. eauto.
    + rewrite (Add_container _ _ _ _ _ xs E) in HAdd. simplify_eq.
      rewrite list_lookup_insert_eq in E' by done. simplify_eq.
      rewrite children_container in Hc.
      apply lookup_app_Some in Hc as [Hc | [Hle Hc]].
      * left. apply child_at_Some. eexists. split; [done|].
        by rewrite children_container.
      * right. split; [done|]. eexists _, (i - length cs). split; [done|].
        rewrite children_container. split; [lia | done].
  - left. unfold child_at in *. by rewrite <- (Add_other _ _ _ _ p HAdd Hp).
Qed.

Lemma Add_child p c : child h' p c → child h p c ∨ (p = s ∧ c ∈ xs).
Proof.
  intros [i Hi]. apply Add_child_at in Hi as [Hi | (-> & o & j & _ & _ & Hj)].
  - left. by exists i.
  - right. split; [done|]. by eapply list_elem_of_lookup_2.
Qed.

Lemma Add_closed :
  closed h → Forall (λ c, c < length h) xs → closed h'.
Proof.
  intros Hcl Hxs p c Hc. rewrite (Add_length _ _ _ _ HAdd).
  apply Add_child in Hc as [Hc | [_ Hc]]; [by eapply Hcl|].
  by eapply (proj1 (Forall_forall _ _) Hxs).
Qed.

(** A path after [Add] is a former path, or runs through one of the new
    edges, from the receiver to an added node. *)
Lemma Add_ancestor a b :
  Forall (λ x, x ≠ s ∧ ¬ ancestor h x s) xs →
  ancestor h' a b →
  ancestor h a b
  ∨ ∃ x, x ∈ xs ∧ (a = s ∨ ancestor h a s) ∧ (x = b ∨ ancestor h x b).
Proof.
  intros Hxs H. induction H as [a b H | a c b H _ IH].
  - apply Add_child in H as [H | [-> H]].
    + left. by apply tc_once.
    + right. exists b. auto.
  - apply Add_child in H as [H | [-> H]].
    + destruct IH as [IH | (x & Hx & Hcs & Hxb)].
      * left. by eapply tc_l.
      * right. exists x. split; [done|]. split; [|done].
        right. destruct Hcs as [-> | Hcs]; [by apply tc_once | by eapply tc_l].
    + destruct IH as [IH | (x & Hx & Hcs & Hxb)].
      * right. exists c. auto.
      * exfalso. apply (proj1 (Forall_forall _ _) Hxs) in H as [Hne Hna].
        destruct Hcs as [-> | Hcs]; [done | by apply Hna].
Qed.

Lemma Add_acyclic :
  acyclic h → Forall (λ x, x ≠ s ∧ ¬ ancestor h x s) xs → acyclic h'.
Proof.
  intros Hac Hxs a Ha.
  destruct (Add_ancestor a a Hxs Ha) as [Ha' | (x & Hx & Has & Hxa)].
  - by eapply Hac.
  - apply (proj1 (Forall_forall _ _) Hxs) in Hx as [Hne Hna].
    destruct Has as [-> | Has], Hxa as [-> | Hxa]; try done.
    apply Hna. by etrans.
Qed.

Lemma Add_single_owner :
  single_owner h → NoDup xs → Forall (λ x, ∀ p, ¬ child h p x) xs → single_owner h'.
Proof.
  intros Hso Hnd Hxs p1 i1 p2 i2 c H1 H2.
  apply Add_child_at in H1 as [H1 | (-> & o1 & j1 & E1 & -> & Hj1)];
    apply Add_child_at in H2 as [H2 | (-> & o2 & j2 & E2 & -> & Hj2)].
  - by eapply Hso.
  - exfalso. apply list_elem_of_lookup_2 in Hj2.
    eapply (proj1 (Forall_forall _ _) Hxs); [done|]. by exists i1.
  - exfalso. apply list_elem_of_lookup_2 in Hj1.
    eapply (proj1 (Forall_forall _ _) Hxs); [done|]. by exists i2.
  - simplify_eq. split; [done|]. f_equal. by eapply NoDup_lookup.
Qed.

End AddGraph.

Lemma reachable_closed (h : heap) : reachable h → closed h.
Proof.
  induction 1 as [| k name h _ IH | name h _ IH | s xs h h' _ IH Hs Hxs HAdd].
  - intros p c Hc. apply child_parent_allocated in Hc. simpl in Hc. lia.
  - intros p c Hc. destruct k; simpl in *; rewrite length_app; simpl;
      apply alloc_child in Hc; try done; apply IH in Hc; lia.
  - intros p c Hc. simpl in *. rewrite length_app. simpl.
    apply alloc_child in Hc; [|done]. apply IH in Hc. lia.
  - by eapply Add_closed.
Qed.

Lemma tree_shaped_alloc (h : heap) o :
  children o = [] → tree_shaped h → tree_shaped (h ++ [o]).
Proof.
  intros Ho (Hcl & Hac & Hso). split; [|split].
  - intros p c Hc. apply alloc_child in Hc; [|done]. apply Hcl in Hc.
    rewrite length_app. simpl. lia.
  - intros a Ha. apply alloc_ancestor in Ha; [|done]. by eapply Hac.
  - intros p1 i1 p2 i2 c H1 H2.
    apply alloc_child_at in H1; [|done]. apply alloc_child_at in H2; [|done].
    by eapply Hso.
Qed.

Lemma tree_shaped_start : tree_shaped [].
Proof.
  assert (Hno : ∀ p c, ¬ child [] p c).
  { intros p c Hc. apply child_parent_allocated in Hc. simpl in Hc. lia. }
  split; [|split].
  - intros p c Hc. by apply Hno in Hc.
  - intros a Ha. inversion Ha as [? ? Hc | ? ? ? Hc]; by apply Hno in Hc.
  - intros p1 i1 p2 i2 c H1. exfalso. apply (Hno p1 c). by exists i1.
Qed.

(** ** Acyclic structures unfold to trees; cyclic ones are never briefed *)

Lemma ancestor_allocated (h : heap) a b : closed h → ancestor h a b → b < length h.
Proof.
  intros Hcl H. induction H as [a b H | a c b _ _ IH]; [by eapply Hcl | done].
Qed.

Lemma Forall_repr_exists (h : heap) (cs : list Soldier) :
  Forall (λ c, ∃ t, repr h c t) cs → ∃ ts, Forall2 (repr h) cs ts.
Proof.
  induction 1 as [|c cs [t Ht] _ [ts Hts]].
  - by exists [].
  - exists (t :: ts). by constructor.
Qed.

Lemma acyclic_repr (h : heap) (s : Soldier) :
  closed h → acyclic h → s < length h → ∃ t, repr h s t.
Proof.
  intros Hcl Hac.
  assert (Hsn : sn (child h) s).
  { apply tc_finite_sn.
    - intros a Ha. by eapply Hac.
    - exists (seq 0 (length h)). intros y Hy.
      apply elem_of_seq. split; [lia|]. simpl. by eapply ancestor_allocated. }
  induction Hsn as [s _ IH]. intros Hs.
  destruct (lookup_lt_is_Some_2 h s Hs) as [o E].
  destruct (object_cases o) as [[name ->] | (k & name & cs & ->)].
  - exists (Leaf name). by constructor.
  - destruct (Forall_repr_exists h cs) as [ts Hts].
    + apply Forall_forall. intros c Hc.
      assert (Hch : child h s c).
      { apply list_elem_of_lookup_1 in Hc as [i Hi]. exists i.
        apply child_at_Some. eexists. split; [done|]. by rewrite children_container. }
      apply IH; [done | by eapply Hcl].
    + exists (Node k name ts). by econstructor.
Qed.

Section BriefOnGraphs.
Context (h : heap) (orders : string).

Lemma range_Ok_elem (f : Soldier → stdout → result stdout) cs c out r :
  range f cs out = Ok r → c ∈ cs → ∃ out' r', f c out' = Ok r'.
Proof.
  revert out. induction cs as [|c' cs IH]; intros out Hr Hc; [by apply elem_of_nil in Hc|].
  simpl in Hr. destruct (f c' out) as [o| |] eqn:E; simpl in Hr; try done.
  apply elem_of_cons in Hc as [-> | Hc]; [eauto | by eapply IH].
Qed.

(** A call that returned has called each child, and that call returned,
    one level deeper on the stack. *)
Lemma Brief_Ok_child depth p c out r :
  Brief depth h orders p out = Ok r → child h p c →
  ∃ d out' r', d < depth ∧ Brief d h orders c out' = Ok r'.
Proof.
  intros HB [i Hi]. apply child_at_Some in Hi as (o & E & Hi).
  destruct depth as [|d]; [done|].
  destruct (object_cases o) as [[name ->] | (k & name & cs & ->)]; [done|].
  rewrite children_container in Hi.
  rewrite (Brief_container _ _ _ _ _ _ _ _ E) in HB.
  destruct (range (Brief d h orders) cs out) as [o2| |] eqn:E2; simpl in HB; try done.
  destruct (range_Ok_elem _ cs c out o2 E2) as (out' & r' & Hc).
  - by eapply list_elem_of_lookup_2.
  - exists d, out', r'. split; [lia | done].
Qed.

Lemma Brief_Ok_descendant p c :
  ancestor h p c →
  ∀ depth out r, Brief depth h orders p out = Ok r →
  ∃ d out' r', d < depth ∧ Brief d h orders c out' = Ok r'.
Proof.
  induction 1 as [p c H | p m c H _ IH]; intros depth out r HB.
  - by eapply Brief_Ok_child.
  - destruct (Brief_Ok_child _ _ _ _ _ HB H) as (d1 & o1 & r1 & Hd1 & HB1).
    destruct (IH _ _ _ HB1) as (d2 & o2 & r2 & Hd2 & HB2).
    exists d2, o2, r2. split; [lia | done].
Qed.

(** A node that is its own ancestor is never briefed to the end. *)
Lemma Brief_cycle_not_Ok s :
  ancestor h s s → ∀ depth out r, Brief depth h orders s out ≠ Ok r.
Proof.
  intros Hs depth. induction (lt_wf depth) as [depth _ IH]. intros out r HB.
  destruct (Brief_Ok_descendant _ _ Hs _ _ _ HB) as (d & o' & r' & Hd & HB').
  by eapply IH.
Qed.

Lemma range_not_Panic (f : Soldier → stdout → result stdout) cs out :
  Forall (λ c, ∀ out', f c out' ≠ Panic) cs → range f cs out ≠ Panic.
Proof.
  intros H. revert out. induction H as [|c cs Hc _ IH]; intros out; [done|].
  simpl. specialize (Hc out). destruct (f c out); simpl; [apply IH | done | done].
Qed.

(** No object is missing behind a pointer of a closed heap. *)
Lemma Brief_not_Panic depth s out :
  closed h → s < length h → Brief depth h orders s out ≠ Panic.
Proof.
  intros Hcl. revert s out. induction depth as [|d IH]; intros s out Hs; [done|].
  destruct (lookup_lt_is_Some_2 h s Hs) as [o E].
  destruct (object_cases o) as [[name ->] | (k & name & cs & ->)].
  - by rewrite (Brief_Enlisted _ _ _ _ _ _ E).
  - rewrite (Brief_container _ _ _ _ _ _ _ _ E).
    assert (Hr : range (Brief d h orders) cs out ≠ Panic).
    { apply range_not_Panic, Forall_forall. intros c Hc out'. apply IH.
      apply (Hcl s). apply list_elem_of_lookup_1 in Hc as [i Hi]. exists i.
      apply child_at_Some. eexists. split; [done|]. by rewrite children_container. }
    by destruct (range (Brief d h orders) cs out).
Qed.

Lemma Brief_cycle_diverges s :
  closed h → ancestor h s s → diverges h orders s.
Proof.
  intros Hcl Hs depth out.
  assert (Hlt : s < length h) by by eapply ancestor_allocated.
  pose proof (Brief_cycle_not_Ok s Hs depth out) as HOk.
  pose proof (Brief_not_Panic depth s out Hcl Hlt) as HP.
  destruct (Brief depth h orders s out) as [r| |]; [by destruct (HOk r) | done | done].
Qed.

End BriefOnGraphs.

(** ** Every tree can be built, and what is built unfolds to it *)

Lemma New_eq k name (h : heap) : New k name h = (length h, h ++ [container k name []]).
Proof. by destruct k. Qed.

Lemma build_Node k name ts (h : heap) :
  build (Node k name ts) h =
    let* r := build_all ts (h ++ [container k name []]) in
    let* h2 := Add (length h) r.1 r.2 in
    Ok (length h, h2).
Proof. simpl. by rewrite New_eq. Qed.

Lemma build_all_cons t ts (h : heap) :
  build_all (t :: ts) h =
    let* r1 := build t h in
    let* r2 := build_all ts r1.2 in
    Ok (r1.1 :: r2.1, r2.2).
Proof. done. Qed.

Lemma build_all_built ts :
  Forall (λ t, ∀ h, ∃ s h', build t h = Ok (s, h') ∧ built t h s h') ts →
  ∀ h, ∃ cs ext,
    build_all ts h = Ok (cs, h ++ ext) ∧
    ∀ pre post : heap, length pre = length h →
      Forall2 (repr (pre ++ ext ++ post)) cs ts.
Proof.
  induction 1 as [|t ts Ht _ IH]; intros h.
  - exists [], []. split; [by rewrite app_nil_r | by constructor].
  - destruct (Ht h) as (c & h1 & Hb & -> & e1 & -> & Hrepr).
    destruct (IH (h ++ e1)) as (cs & e2 & Hbs & Hreprs).
    exists (length h :: cs), (e1 ++ e2). split.
    + rewrite build_all_cons, Hb. simpl. rewrite Hbs. simpl. by rewrite app_assoc.
    + intros pre post Hlen. constructor.
      * rewrite <- (app_assoc e1 e2 post). by apply Hrepr.
      * specialize (Hreprs (pre ++ e1) post).
        rewrite <- !app_assoc in Hreprs. rewrite <- app_assoc. apply Hreprs.
        rewrite !length_app. lia.
Qed.

Lemma build_built t : ∀ h, ∃ s h', build t h = Ok (s, h') ∧ built t h s h'.
Proof.
  induction t as [name | k name ts IH] using tree_ind_Forall; intros h.
  - exists (length h), (h ++ [Enlisted name]). split; [done|]. split; [done|].
    exists [Enlisted name]. split; [done|]. intros pre post Hlen. constructor.
    rewrite lookup_app_r by lia. by rewrite Hlen, Nat.sub_diag.
  - destruct (build_all_built ts IH (h ++ [container k name []]))
      as (cs & ext & Hbs & Hreprs).
    exists (length h), (h ++ [container k name cs] ++ ext). split; [|split; [done|]].
    + rewrite build_Node, Hbs. simpl.
      rewrite (Add_container _ _ k name [] cs).
      * simpl. do 2 f_equal. rewrite <- app_assoc.
        rewrite insert_app_r_alt by lia. by rewrite Nat.sub_diag.
      * rewrite <- app_assoc. rewrite lookup_app_r by lia. by rewrite Nat.sub_diag.
    + exists ([container k name cs] ++ ext). split; [done|].
      intros pre post Hlen. econstructor.
      * rewrite lookup_app_r by lia. rewrite Hlen, Nat.sub_diag. done.
      * specialize (Hreprs (pre ++ [container k name cs]) post).
        rewrite <- !app_assoc in Hreprs. rewrite <- app_assoc. apply Hreprs.
        rewrite !length_app. simpl. lia.
Qed.

Lemma build_repr t (h : heap) : ∃ s h', build t h = Ok (s, h') ∧ repr h' s t.
Proof.
  destruct (build_built t h) as (s & h' & Hb & _ & ext & -> & Hrepr).
  exists s, (h ++ ext). split; [done|].
  specialize (Hrepr h [] eq_refl). by rewrite app_nil_r in Hrepr.
Qed.

(** Built from nothing and briefed: the broadcast of the tree. *)
Lemma build_Brief t orders :
  ∃ s h, build t [] = Ok (s, h) ∧ Brief (levels t) h orders s [] = Ok (lines orders t).
Proof.
  destruct (build_repr t []) as (s & h & Hb & Hr). exists s, h. split; [done|].
  by apply (Brief_repr h orders t s (levels t) []).
Qed.

(** ** The example scenario *)

Lemma scenario_heap_eq :
  scenario_heap =
    Ok (0, [Division "1st" [1]; Brigade "A" [2]; Platoon "1" [3];
            Squad "alpha" [4; 5]; Enlisted "Smith"; Enlisted "Jones"]).
Proof. reflexivity. Qed.

Lemma scenario_heap_repr :
  repr [Division "1st" [1]; Brigade "A" [2]; Platoon "1" [3];
        Squad "alpha" [4; 5]; Enlisted "Smith"; Enlisted "Jones"] 0 scenario_tree.
Proof.
  unfold scenario_tree.
  apply (repr_Node _ 0 RDivision "1st" [1]); [done|]. repeat constructor.
  apply (repr_Node _ 1 RBrigade "A" [2]); [done|]. repeat constructor.
  apply (repr_Node _ 2 RPlatoon "1" [3]); [done|]. repeat constructor.
  apply (repr_Node _ 3 RSquad "alpha" [4; 5]); [done|]. by repeat constructor.
Qed.

(** C3: the scenario of the spec, built with the constructors and [Add],
    writes "Move out" twice, then the summaries of the squad, the platoon,
    the brigade and the division, in this order, as soon as the stack has
    room for the five levels. *)
Theorem scenario_output (n : nat) :
  scenario (5 + n) =
    Ok ["Move out"; "Move out"; "Briefing 2 Enlistees"; "Briefing 1 Squads";
        "Briefing 1 Platoons"; "Briefing 1 Brigades"].
Proof.
  unfold scenario. rewrite scenario_heap_eq. cbn [bind fst snd].
  apply (Brief_mono _ _ 5); [reflexivity | lia].
Qed.

(** ** Broadcast order and completeness *)

Lemma notes_leaf_texts orders t :
  leaf_texts (notes orders t) = replicate (leaves t) orders.
Proof.
  unfold leaf_texts.
  induction t as [name | k name ts IH] using tree_ind_Forall; [done|].
  simpl. rewrite omap_app. simpl. rewrite app_nil_r.
  induction IH as [|t ts Ht _ IHts]; [done|].
  simpl. by rewrite omap_app, Ht, IHts, replicate_add.
Qed.

(** C1: after [Add], the children of a container are its former children
    followed by the added ones, in the order of the call; on a tree, [Brief]
    on the container appends the lines of each child, child after child in
    that order, each as the child's own [Brief] writes them, and then, last,
    one summary with the number of direct children. *)
Theorem Brief_children_in_order_then_summary
    (h h' : heap) (s : Soldier) (k : rank) (name : string)
    (cs xs : list Soldier) (ts : list tree) (orders : string) (out : stdout) :
  h !! s = Some (container k name cs) →
  Add s xs h = Ok h' →
  Forall2 (repr h') (cs ++ xs) ts →
  h' !! s = Some (container k name (cs ++ xs))
  ∧ ∃ outs : list (list string),
      Forall2 (λ c o, ∀ depth out',
                 height (Node k name ts) ≤ depth →
                 Brief depth h' orders c out' = Ok (out' ++ o)) (cs ++ xs) outs
      ∧ ∀ depth, height (Node k name ts) < depth →
          Brief depth h' orders s out =
            Ok (out ++ concat outs ++ [summary k (length (cs ++ xs))]).
Proof.
  intros Hs HAdd Hts.
  assert (Hs' : h' !! s = Some (container k name (cs ++ xs))).
  { rewrite (Add_container _ _ _ _ _ xs Hs) in HAdd. simplify_eq.
    apply list_lookup_insert_eq. by eapply lookup_lt_Some. }
  split; [done|].
  assert (Hr : repr h' s (Node k name ts)) by by econstructor.
  exists (lines orders <$> ts). split.
  - apply Forall2_fmap_r.
    assert (Hle : Forall (λ t, levels t ≤ height (Node k name ts)) ts).
    { apply (levels_Node_le k name). by rewrite levels_height. }
    revert Hle. clear -Hts. generalize (height (Node k name ts)). intros m.
    induction Hts as [|c t cs' ts Hc _ IH]; intros Hle; constructor.
    + intros depth out' Hd. apply Brief_repr; [done|].
      apply Forall_inv in Hle. lia.
    + apply IH. by eapply Forall_inv_tail.
  - intros depth Hd.
    rewrite (Brief_repr h' orders _ s depth out Hr) by (rewrite levels_height; lia).
    by rewrite lines_Node, (Forall2_length _ _ _ Hts).
Qed.

Lemma Brief_children_in_order_then_summary_witness :
  let h := [Squad "alpha" [1]; Enlisted "Smith"; Enlisted "Jones"] in
  let h' := [Squad "alpha" [1; 2]; Enlisted "Smith"; Enlisted "Jones"] in
  h' !! 0 = Some (container RSquad "alpha" ([1] ++ [2]))
  ∧ ∃ outs : list (list string),
      Forall2 (λ c o, ∀ depth out',
                 height (Node RSquad "alpha" [Leaf "Smith"; Leaf "Jones"]) ≤ depth →
                 Brief depth h' "Move out" c out' = Ok (out' ++ o)) ([1] ++ [2]) outs
      ∧ ∀ depth, height (Node RSquad "alpha" [Leaf "Smith"; Leaf "Jones"]) < depth →
          Brief depth h' "Move out" 0 [] =
            Ok ([] ++ concat outs ++ [summary RSquad (length ([1] ++ [2]))]).
Proof.
  intros h h'.
  apply (Brief_children_in_order_then_summary h h' 0 RSquad "alpha" [1] [2]
           [Leaf "Smith"; Leaf "Jones"] "Move out" []).
  - reflexivity.
  - reflexivity.
  - repeat constructor.
Defined.

(** C2: on a structure that unfolds to a tree, [Brief] on the root writes
    the broadcast of the tree, in which there is one leaf notification for
    each leaf, and each of them is the order string itself. *)
Theorem Brief_one_notification_per_leaf
    (h : heap) (s : Soldier) (t : tree) (orders : string) (out : stdout) :
  repr h s t →
  Brief (S (height t)) h orders s out = Ok (out ++ (text <$> notes orders t))
  ∧ leaf_texts (notes orders t) = replicate (leaves t) orders
  ∧ length (leaf_texts (notes orders t)) = leaves t.
Proof.
  intros Hr. split; [|split].
  - apply (Brief_repr h orders t s _ out Hr). by rewrite levels_height.
  - apply notes_leaf_texts.
  - by rewrite notes_leaf_texts, length_replicate.
Qed.

Lemma Brief_one_notification_per_leaf_witness :
  let h := [Division "1st" [1]; Brigade "A" [2]; Platoon "1" [3];
            Squad "alpha" [4; 5]; Enlisted "Smith"; Enlisted "Jones"] in
  Brief (S (height scenario_tree)) h "Move out" 0 [] =
    Ok ([] ++ (text <$> notes "Move out" scenario_tree))
  ∧ leaf_texts (notes "Move out" scenario_tree) =
      replicate (leaves scenario_tree) "Move out"
  ∧ length (leaf_texts (notes "Move out" scenario_tree)) = leaves scenario_tree.
Proof.
  intros h.
  exact (Brief_one_notification_per_leaf h 0 scenario_tree "Move out" []
           scenario_heap_repr).
Defined.

(** ** The shape of what a client can build *)

Lemma self_added_eq : self_added = Ok (0, [Division "1st" [0]]).
Proof. reflexivity. Qed.

Lemma self_added_reachable : reachable [Division "1st" [0]].
Proof.
  apply (reachable_Add 0 [0] [Division "1st" []]).
  - apply (reachable_New RDivision "1st" []). constructor.
  - simpl. lia.
  - repeat constructor.
  - reflexivity.
Qed.

Lemma self_added_cycle : ancestor [Division "1st" [0]] 0 0.
Proof. apply tc_once. by exists 0. Qed.

(** C5, as stated, fails: [d.Add(d)] on a fresh division is a sequence of
    public calls, and it leaves [d] among its own children. *)
Lemma self_added_not_tree_shaped :
  ¬ (∀ h : heap, reachable h → tree_shaped h).
Proof.
  intros H. destruct (H _ self_added_reachable) as (_ & Hac & _).
  exact (Hac 0 self_added_cycle).
Qed.

(** C5, amended: in every structure reachable through the constructors and
    [Add], each stored pointer is the address of a constructed node; the
    constructors keep a tree-shaped heap tree-shaped; and so does [Add],
    which changes no object but the receiver, when the added nodes are
    pairwise distinct, have no parent yet, and are neither the receiver nor
    one of its ancestors. *)
Theorem Add_preserves_tree_shape (h : heap) :
  reachable h →
  closed h
  ∧ (tree_shaped h → ∀ k name, tree_shaped (New k name h).2)
  ∧ (tree_shaped h → ∀ name, tree_shaped (NewEnlisted name h).2)
  ∧ (tree_shaped h →
     ∀ s xs h',
       s < length h →
       Forall (λ x, x < length h) xs →
       NoDup xs →
       Forall (λ x, x ≠ s ∧ ¬ ancestor h x s ∧ ∀ p, ¬ child h p x) xs →
       Add s xs h = Ok h' →
       reachable h' ∧ tree_shaped h' ∧ ∀ p, p ≠ s → h' !! p = h !! p).
Proof.
  intros Hreach. split; [by apply reachable_closed|]. split; [|split].
  - intros Ht k name. rewrite New_eq. simpl.
    apply tree_shaped_alloc; [apply children_container | done].
  - intros Ht name. by apply tree_shaped_alloc.
  - intros (Hcl & Hac & Hso) s xs h' Hs Hlt Hnd Hxs HAdd. split; [|split].
    + by eapply reachable_Add.
    + split; [|split].
      * by eapply Add_closed.
      * eapply Add_acyclic; [done | done |].
        eapply Forall_impl; [exact Hxs|]. by intros x (Hne & Hna & _).
      * eapply Add_single_owner; [done | done | done |].
        eapply Forall_impl; [exact Hxs|]. by intros x (_ & _ & Hnp).
    + intros p Hp. by eapply Add_other.
Qed.

(** Pointers that only lead to higher addresses cannot lead back. *)
Lemma acyclic_increasing (h : heap) :
  (∀ p c, child h p c → p < c) → acyclic h.
Proof.
  intros Hinc.
  assert (Hanc : ∀ a b, ancestor h a b → a < b).
  { induction 1 as [a b H | a c b H _ IH]; [by apply Hinc|].
    apply Hinc in H. lia. }
  intros a Ha. apply Hanc in Ha. lia.
Qed.

Lemma scenario_heap_reachable :
  reachable [Division "1st" [1]; Brigade "A" [2]; Platoon "1" [3];
             Squad "alpha" [4; 5]; Enlisted "Smith"; Enlisted "Jones"].
Proof.
  apply (reachable_Add 3 [4; 5]
           [Division "1st" [1]; Brigade "A" [2]; Platoon "1" [3];
            Squad "alpha" []; Enlisted "Smith"; Enlisted "Jones"]);
    [| simpl; lia | repeat constructor; simpl; lia | reflexivity].
  apply (reachable_Add 2 [3]
           [Division "1st" [1]; Brigade "A" [2]; Platoon "1" [];
            Squad "alpha" []; Enlisted "Smith"; Enlisted "Jones"]);
    [| simpl; lia | repeat constructor; simpl; lia | reflexivity].
  apply (reachable_Add 1 [2]
           [Division "1st" [1]; Brigade "A" []; Platoon "1" [];
            Squad "alpha" []; Enlisted "Smith"; Enlisted "Jones"]);
    [| simpl; lia | repeat constructor; simpl; lia | reflexivity].
  apply (reachable_Add 0 [1]
           [Division "1st" []; Brigade "A" []; Platoon "1" [];
            Squad "alpha" []; Enlisted "Smith"; Enlisted "Jones"]);
    [| simpl; lia | repeat constructor; simpl; lia | reflexivity].
  apply (reachable_NewEnlisted "Jones" [_; _; _; _; _]).
  apply (reachable_NewEnlisted "Smith" [_; _; _; _]).
  apply (reachable_New RSquad "alpha" [_; _; _]).
  apply (reachable_New RPlatoon "1" [_; _]).
  apply (reachable_New RBrigade "A" [_]).
  apply (reachable_New RDivision "1st" []).
  constructor.
Qed.

Lemma scenario_heap_acyclic :
  acyclic [Division "1st" [1]; Brigade "A" [2]; Platoon "1" [3];
           Squad "alpha" [4; 5]; Enlisted "Smith"; Enlisted "Jones"].
Proof.
  apply acyclic_increasing. intros p c [i Hi].
  apply child_at_Some in Hi as (o & E & Hi).
  do 6 (destruct p as [|p]; [simpl in E; simplify_eq; simpl in Hi;
          repeat (destruct i as [|i]; simpl in Hi; simplify_eq; try lia)|]).
  done.
Qed.

Lemma two_fresh_reachable : reachable [Division "1st" []; Brigade "A" []].
Proof.
  apply (reachable_New RBrigade "A" [Division "1st" []]).
  apply (reachable_New RDivision "1st" []). constructor.
Qed.

Lemma two_fresh_no_child p c : ¬ child [Division "1st" []; Brigade "A" []] p c.
Proof.
  intros [i Hi]. apply child_at_Some in Hi as (o & E & Hi).
  destruct p as [|[|p]]; simpl in E; simplify_eq.
Qed.

Lemma two_fresh_no_ancestor a b : ¬ ancestor [Division "1st" []; Brigade "A" []] a b.
Proof. intros H. inversion H as [? ? Hc | ? ? ? Hc]; by apply two_fresh_no_child in Hc. Qed.

Lemma two_fresh_tree_shaped : tree_shaped [Division "1st" []; Brigade "A" []].
Proof.
  split; [|split].
  - intros p c Hc. by apply two_fresh_no_child in Hc.
  - intros a Ha. by apply two_fresh_no_ancestor in Ha.
  - intros p1 i1 p2 i2 c H1. exfalso. apply (two_fresh_no_child p1 c). by exists i1.
Qed.

Lemma Add_preserves_tree_shape_witness :
  reachable [Division "1st" [1]; Brigade "A" []]
  ∧ tree_shaped [Division "1st" [1]; Brigade "A" []]
  ∧ ∀ p, p ≠ 0 →
      [Division "1st" [1]; Brigade "A" []] !! p =
      [Division "1st" []; Brigade "A" []] !! p.
Proof.
  apply (proj2 (proj2 (proj2
           (Add_preserves_tree_shape [Division "1st" []; Brigade "A" []]
              two_fresh_reachable)))
           two_fresh_tree_shaped 0 [1]).
  - simpl. lia.
  - repeat constructor.
  - repeat constructor. by intros H%elem_of_nil.
  - constructor; [|constructor]. split; [done|]. split.
    + apply two_fresh_no_ancestor.
    + intros p. apply two_fresh_no_child.
  - reflexivity.
Defined.

(** ** Termination *)

(** C6, as stated, fails: after [d.Add(d)], built with public calls only,
    [d.Brief] returns with no bound on the stack. *)
Lemma self_added_Brief_never_returns :
  ¬ (∀ (h : heap) (s : Soldier) (orders : string),
       reachable h → s < length h →
       ∃ depth r, Brief depth h orders s [] = Ok r).
Proof.
  intros H.
  destruct (H [Division "1st" [0]] 0 "Move out" self_added_reachable) as (depth & r & HB).
  - simpl. lia.
  - by eapply Brief_cycle_not_Ok; [apply self_added_cycle|].
Qed.

(** C6, amended: on every structure built by the constructors and [Add] in
    which no node is its own ancestor, [Brief] returns; the structure
    unfolds to a tree, and the nesting of calls is the number of levels of
    that tree, one more than its height, whatever the order string.  On a
    node that [Add] has made its own ancestor, [Brief] never returns. *)
Theorem Brief_terminates_on_acyclic (h : heap) (s : Soldier) :
  reachable h → s < length h →
  (acyclic h →
   ∃ t, repr h s t
     ∧ ∀ orders out,
         (∀ depth, height t < depth →
            Brief depth h orders s out = Ok (out ++ lines orders t))
         ∧ (∀ depth, depth ≤ height t →
              Brief depth h orders s out = StackOverflow))
  ∧ (ancestor h s s → ∀ orders, diverges h orders s).
Proof.
  intros Hreach Hs. pose proof (reachable_closed h Hreach) as Hcl. split.
  - intros Hac. destruct (acyclic_repr h s Hcl Hac Hs) as [t Hr].
    exists t. split; [done|]. intros orders out. split; intros depth Hd.
    + apply Brief_repr; [done|]. rewrite levels_height. lia.
    + apply (Brief_repr_overflow h orders t); [done|]. rewrite levels_height. lia.
  - intros Hcyc orders. by apply Brief_cycle_diverges.
Qed.

Lemma Brief_terminates_on_acyclic_witness :
  let h := [Division "1st" [1]; Brigade "A" [2]; Platoon "1" [3];
            Squad "alpha" [4; 5]; Enlisted "Smith"; Enlisted "Jones"] in
  ∃ t, repr h 0 t
    ∧ ∀ orders out,
        (∀ depth, height t < depth →
           Brief depth h orders 0 out = Ok (out ++ lines orders t))
        ∧ (∀ depth, depth ≤ height t →
             Brief depth h orders 0 out = StackOverflow).
Proof.
  intros h. apply (Brief_terminates_on_acyclic h 0).
  - exact scenario_heap_reachable.
  - simpl. lia.
  - exact scenario_heap_acyclic.
Defined.

(** ** Totality *)

Lemma added_to_each_other_eq :
  added_to_each_other = Ok (0, [Brigade "A" [1]; Platoon "1" [0]]).
Proof. reflexivity. Qed.

Lemma added_to_each_other_reachable : reachable [Brigade "A" [1]; Platoon "1" [0]].
Proof.
  apply (reachable_Add 1 [0] [Brigade "A" [1]; Platoon "1" []]);
    [| simpl; lia | repeat constructor | reflexivity].
  apply (reachable_Add 0 [1] [Brigade "A" []; Platoon "1" []]);
    [| simpl; lia | repeat constructor | reflexivity].
  apply (reachable_New RPlatoon "1" [Brigade "A" []]).
  apply (reachable_New RBrigade "A" []). constructor.
Qed.

Lemma added_to_each_other_cycle : ancestor [Brigade "A" [1]; Platoon "1" [0]] 0 0.
Proof. apply (tc_l _ 0 1 0); [by exists 0 | apply tc_once; by exists 0]. Qed.

(** C7, as stated, fails for [Brief]: after [b.Add(p)] and [p.Add(b)], all
    of them calls that succeed, [b.Brief] exhausts any stack. *)
Lemma added_to_each_other_Brief_not_total :
  ¬ (∀ (h : heap) (s : Soldier) (xs : list Soldier) (orders : string) (out : stdout),
       reachable h → s < length h → Forall (λ x, x < length h) xs →
       (∃ h', Add s xs h = Ok h')
       ∧ (∃ depth r, Brief depth h orders s out = Ok r)).
Proof.
  intros H.
  destruct (H [Brigade "A" [1]; Platoon "1" [0]] 0 [] "Move out" []
              added_to_each_other_reachable) as (_ & depth & r & HB).
  - simpl. lia.
  - constructor.
  - by eapply Brief_cycle_not_Ok; [apply added_to_each_other_cycle|].
Qed.

(** C7, amended: [GetOS], [TurnOn], [TurnOff] and [Add] return on every
    input and signal no error, and [Add] with no children leaves the heap
    as it was; [Brief] returns, with no error, on every structure in which
    no node is its own ancestor, and on a container with no children it
    writes exactly one line, the summary with the count 0. *)
Theorem operations_total (h : heap) (s : Soldier) :
  reachable h → s < length h →
  (∀ i out, ∃ os, factoryMethod.IPhone_GetOS i = os
     ∧ ∃ i1 out1 i2 out2,
         factoryMethod.IPhone_TurnOn i out = (i1, out1)
         ∧ factoryMethod.IPhone_TurnOff i out = (i2, out2))
  ∧ (∀ xs, ∃ h', Add s xs h = Ok h')
  ∧ Add s [] h = Ok h
  ∧ (acyclic h → ∃ depth, ∀ orders out, ∃ r, Brief depth h orders s out = Ok r)
  ∧ (∀ k name, h !! s = Some (container k name []) →
       ∀ depth orders out,
         Brief (S depth) h orders s out = Ok (out ++ [summary k 0])
         ∧ summary k 0 = ("Briefing 0 " +:+ plural k)%string).
Proof.
  intros Hreach Hs. split; [|split; [|split; [|split]]].
  - intros i out. eexists. split; [done|].
    destruct (factoryMethod.IPhone_TurnOn i out) as [i1 out1].
    destruct (factoryMethod.IPhone_TurnOff i out) as [i2 out2]. by eauto 6.
  - intros xs. by apply Add_allocated.
  - by apply Add_nothing.
  - intros Hac.
    destruct (acyclic_repr h s (reachable_closed h Hreach) Hac Hs) as [t Hr].
    exists (levels t). intros orders out. eexists. by apply (Brief_repr h orders t).
  - intros k name E depth orders out. split; [|done].
    by rewrite (Brief_container _ _ _ _ _ _ _ _ E).
Qed.

Lemma operations_total_witness :
  (∀ i out, ∃ os, factoryMethod.IPhone_GetOS i = os
     ∧ ∃ i1 out1 i2 out2,
         factoryMethod.IPhone_TurnOn i out = (i1, out1)
         ∧ factoryMethod.IPhone_TurnOff i out = (i2, out2))
  ∧ (∀ xs, ∃ h', Add 0 xs [Division "1st" []; Brigade "A" []] = Ok h')
  ∧ Add 0 [] [Division "1st" []; Brigade "A" []] = Ok [Division "1st" []; Brigade "A" []]
  ∧ (acyclic [Division "1st" []; Brigade "A" []] →
     ∃ depth, ∀ orders out, ∃ r,
       Brief depth [Division "1st" []; Brigade "A" []] orders 0 out = Ok r)
  ∧ (∀ k name,
       [Division "1st" []; Brigade "A" []] !! 0 = Some (container k name []) →
       ∀ depth orders out,
         Brief (S depth) [Division "1st" []; Brigade "A" []] orders 0 out =
           Ok (out ++ [summary k 0])
         ∧ summary k 0 = ("Briefing 0 " +:+ plural k)%string).
Proof.
  apply (operations_total [Division "1st" []; Brigade "A" []] 0).
  - exact two_fresh_reachable.
  - simpl. lia.
Defined.

(** ** Add on a leaf *)

(** C9: on an [Enlisted], [Add] returns without error whatever it is given,
    the heap is the one before the call, and so every later [Brief], of the
    leaf or of anything else, does what it did before: the leaf still writes
    the order and nothing more. *)
Theorem Enlisted_Add_is_noop
    (h : heap) (e : Soldier) (name : string) (xs : list Soldier) :
  h !! e = Some (Enlisted name) →
  ∃ h', Add e xs h = Ok h'
    ∧ h' = h
    ∧ (∀ depth orders s out,
         Brief depth h' orders s out = Brief depth h orders s out)
    ∧ (∀ depth orders out,
         Brief (S depth) h' orders e out = Ok (out ++ [orders])).
Proof.
  intros E. exists h. split; [by eapply Add_Enlisted|]. split; [done|].
  split; [done|]. intros depth orders out. by eapply Brief_Enlisted.
Qed.

Lemma Enlisted_Add_is_noop_witness :
  ∃ h', Add 1 [0; 1; 7] [Squad "alpha" [1]; Enlisted "Smith"] = Ok h'
    ∧ h' = [Squad "alpha" [1]; Enlisted "Smith"]
    ∧ (∀ depth orders s out,
         Brief depth h' orders s out =
         Brief depth [Squad "alpha" [1]; Enlisted "Smith"] orders s out)
    ∧ (∀ depth orders out,
         Brief (S depth) h' orders 1 out = Ok (out ++ [orders])).
Proof.
  apply (Enlisted_Add_is_noop [Squad "alpha" [1]; Enlisted "Smith"] 1 "Smith" [0; 1; 7]).
  reflexivity.
Defined.

(** ** Add checks nothing *)

Lemma visit_ind_Forall (P : visit → Prop) :
  (∀ s vs, Forall P vs → P (Visit s vs)) → ∀ v, P v.
Proof.
  intros HV. fix IH 1. intros [s vs]. apply HV.
  induction vs as [|v vs IHvs]; constructor; [apply IH | apply IHvs].
Qed.

Lemma own_line_Enlisted (h : heap) orders s name :
  h !! s = Some (Enlisted name) → own_line h orders s = orders.
Proof. intros E. unfold own_line. by rewrite E. Qed.

Lemma own_line_container (h : heap) orders s k name cs :
  h !! s = Some (container k name cs) → own_line h orders s = summary k (length cs).
Proof. intros E. unfold own_line. rewrite E. by destruct k. Qed.

Lemma written_Visit (h : heap) orders s vs :
  (written h orders (Visit s vs)).*2 =
    concat ((λ v, (written h orders v).*2) <$> vs) ++ [own_line h orders s].
Proof.
  simpl. rewrite fmap_app. f_equal.
  induction vs as [|v vs IH]; [done|].
  rewrite fmap_cons. cbn [foldr concat]. by rewrite fmap_app, IH.
Qed.

Lemma nesting_Visit_le s vs d :
  nesting (Visit s vs) ≤ S d ↔ Forall (λ v, nesting v ≤ d) vs.
Proof.
  simpl. induction vs as [|v vs IH]; simpl.
  - split; [constructor | lia].
  - rewrite Forall_cons. split.
    + intros H. split; [lia|]. apply IH. lia.
    + intros [H1 H2]. apply IH in H2. lia.
Qed.

(** With room for the nesting of its visits, a briefing returns, having
    written the notifications of the visits, one after the other. *)
Lemma Brief_traversal (h : heap) orders v :
  ∀ s depth out,
    traversal h s v → nesting v ≤ depth →
    Brief depth h orders s out = Ok (out ++ (written h orders v).*2).
Proof.
  induction v as [s' vs IH] using visit_ind_Forall. intros s depth out Ht Hd.
  inversion Ht as [s0 o vs0 Hs Hvs]; subst.
  destruct depth as [|d]; [simpl in Hd; lia|].
  apply nesting_Visit_le in Hd. rewrite written_Visit.
  destruct (object_cases o) as [[name ->] | (k & name & cs & ->)].
  - simpl in Hvs. apply Forall2_nil_inv_l in Hvs as ->.
    rewrite (Brief_Enlisted _ _ _ _ _ _ Hs). by rewrite (own_line_Enlisted _ _ _ _ Hs).
  - rewrite children_container in Hvs.
    rewrite (Brief_container _ _ _ _ _ _ _ _ Hs), (own_line_container _ _ _ _ _ _ Hs).
    rewrite (range_concat _ cs ((λ v, (written h orders v).*2) <$> vs)).
    + simpl. by rewrite <- app_assoc.
    + apply Forall2_fmap_r. clear Hs Ht.
      induction Hvs as [|c v cs vs Hc _ IHvs]; constructor.
      * intros out'. apply (Forall_inv IH); [done|]. by apply Forall_inv in Hd.
      * apply IHvs; by eapply Forall_inv_tail.
Qed.

(** Each visit to a node makes it write its own notification, once. *)
Lemma written_by_occurrences (h : heap) orders x v :
  written_by x (written h orders v) = replicate (occurrences x v) (x, own_line h orders x).
Proof.
  unfold written_by. induction v as [s vs IH] using visit_ind_Forall.
  cbn [written occurrences]. rewrite filter_app, Nat.add_comm, replicate_add. f_equal.
  - induction IH as [|v vs Hv _ IHvs]; [done|].
    cbn [foldr]. by rewrite filter_app, Hv, IHvs, replicate_add.
  - destruct (decide (x = s)) as [-> | Hne].
    + by rewrite filter_cons_True.
    + rewrite filter_cons_False; [done|]. simpl. congruence.
Qed.

(** A node is visited once for each visit to a container and each entry of
    that container which holds it, besides the visit that starts there. *)
Lemma occurrences_held (h : heap) p o x v :
  h !! p = Some o →
  ∀ r, traversal h r v →
    occurrences p v * held x (children o) + (if decide (x = r) then 1 else 0)
    ≤ occurrences x v.
Proof.
  intros Hp. induction v as [s vs IH] using visit_ind_Forall. intros r Ht.
  inversion Ht as [s0 o' vs0 Hs Hvs]; subst.
  assert (Hsum : foldr (λ v' n, occurrences p v' + n) 0 vs * held x (children o)
                 + held x (children o')
                 ≤ foldr (λ v' n, occurrences x v' + n) 0 vs).
  { clear Hs Ht. induction Hvs as [|c v cs vs Hc _ IHvs]; [done|].
    pose proof (Forall_inv IH c Hc) as Hv.
    specialize (IHvs (Forall_inv_tail IH)).
    cbn [foldr]. unfold held in *. rewrite Nat.mul_add_distr_r.
    destruct (decide (c = x)) as [-> | Hne].
    - rewrite filter_cons_True by done. rewrite decide_True in Hv by done.
      simpl. lia.
    - rewrite filter_cons_False by done. lia. }
  cbn [occurrences]. rewrite Nat.mul_add_distr_r.
  destruct (decide (p = s)) as [-> | Hne].
  - assert (o' = o) by congruence. subst o'. lia.
  - lia.
Qed.

(** C10: on a container, [Add] succeeds whatever pointers it is given, be
    they given twice, children already, or children of other containers,
    and appends them all.  A briefing of any node afterwards writes the
    notifications of its traversal: each node writes its own notification,
    the order for an enlisted soldier, once for each visit to it, and it is
    visited once for each visit to a container and each entry of that
    container which holds it, not once for all. *)
Theorem Brief_once_per_occurrence
    (h : heap) (s : Soldier) (k : rank) (name : string) (cs xs : list Soldier)
    (r : Soldier) (v : visit) (orders : string) (out : stdout) :
  h !! s = Some (container k name cs) →
  traversal (<[s := container k name (cs ++ xs)]> h) r v →
  let h' := <[s := container k name (cs ++ xs)]> h in
  Add s xs h = Ok h'
  ∧ h' !! s = Some (container k name (cs ++ xs))
  ∧ Brief (nesting v) h' orders r out = Ok (out ++ (written h' orders v).*2)
  ∧ (∀ x, written_by x (written h' orders v)
          = replicate (occurrences x v) (x, own_line h' orders x))
  ∧ (∀ x name', h' !! x = Some (Enlisted name') → own_line h' orders x = orders)
  ∧ 1 ≤ occurrences r v
  ∧ (∀ x, occurrences s v * held x (cs ++ xs) ≤ occurrences x v).
Proof.
  intros E Ht h'.
  assert (E' : h' !! s = Some (container k name (cs ++ xs))).
  { apply list_lookup_insert_eq. by eapply lookup_lt_Some. }
  split; [by apply Add_container|]. split; [done|]. split; [|split; [|split; [|split]]].
  - by apply Brief_traversal.
  - intros x. apply written_by_occurrences.
  - intros x name' Ex. by eapply own_line_Enlisted.
  - inversion Ht; subst. cbn [occurrences]. rewrite decide_True by done. lia.
  - intros x. pose proof (occurrences_held h' s _ x v E' r Ht) as Hle.
    rewrite children_container in Hle. lia.
Qed.

Lemma Brief_once_per_occurrence_witness :
  let h' := [Brigade "A" [1; 2]; Platoon "1" [3]; Platoon "2" [3];
             Squad "alpha" [4; 4]; Enlisted "Smith"] in
  let v := Visit 0 [Visit 1 [Visit 3 [Visit 4 []; Visit 4 []]];
                    Visit 2 [Visit 3 [Visit 4 []; Visit 4 []]]] in
  Add 3 [4] [Brigade "A" [1; 2]; Platoon "1" [3]; Platoon "2" [3];
             Squad "alpha" [4]; Enlisted "Smith"] = Ok h'
  ∧ h' !! 3 = Some (container RSquad "alpha" ([4] ++ [4]))
  ∧ Brief (nesting v) h' "Move out" 0 [] = Ok ([] ++ (written h' "Move out" v).*2)
  ∧ (∀ x, written_by x (written h' "Move out" v)
          = replicate (occurrences x v) (x, own_line h' "Move out" x))
  ∧ (∀ x name', h' !! x = Some (Enlisted name') → own_line h' "Move out" x = "Move out")
  ∧ 1 ≤ occurrences 0 v
  ∧ (∀ x, occurrences 3 v * held x ([4] ++ [4]) ≤ occurrences x v).
Proof.
  intros h' v.
  apply (Brief_once_per_occurrence
           [Brigade "A" [1; 2]; Platoon "1" [3]; Platoon "2" [3];
            Squad "alpha" [4]; Enlisted "Smith"]
           3 RSquad "alpha" [4] [4] 0 v "Move out" []).
  - reflexivity.
  - assert (H4 : traversal h' 4 (Visit 4 [])).
    { apply (traversal_Visit h' 4 (Enlisted "Smith")); [done | constructor]. }
    assert (H3 : traversal h' 3 (Visit 3 [Visit 4 []; Visit 4 []])).
    { apply (traversal_Visit h' 3 (Squad "alpha" [4; 4])); [done|]. by repeat constructor. }
    apply (traversal_Visit h' 0 (Brigade "A" [1; 2])); [done|].
    constructor; [|constructor; [|constructor]].
    + apply (traversal_Visit h' 1 (Platoon "1" [3])); [done|]. by repeat constructor.
    + apply (traversal_Visit h' 2 (Platoon "2" [3])); [done|]. by repeat constructor.
Defined.

(** In that structure one soldier is visited four times, and the order is
    written four times, for one enlisted soldier constructed. *)
Lemma shared_visits :
  let h' := [Brigade "A" [1; 2]; Platoon "1" [3]; Platoon "2" [3];
             Squad "alpha" [4; 4]; Enlisted "Smith"] in
  let v := Visit 0 [Visit 1 [Visit 3 [Visit 4 []; Visit 4 []]];
                    Visit 2 [Visit 3 [Visit 4 []; Visit 4 []]]] in
  occurrences 4 v = 4
  ∧ written_by 4 (written h' "Move out" v) = replicate 4 (4, "Move out")
  ∧ Brief 4 h' "Move out" 0 [] =
      Ok ["Move out"; "Move out"; "Briefing 2 Enlistees"; "Briefing 1 Squads";
          "Move out"; "Move out"; "Briefing 2 Enlistees"; "Briefing 1 Squads";
          "Briefing 2 Platoons"].
Proof. intros h' v. by repeat split. Qed.

(** One soldier, held twice by a squad that two platoons hold, hears the
    order four times when the brigade above them is briefed. *)
Lemma shared_briefed_per_occurrence :
  (let* r := shared in Brief 4 r.2 "Move out" r.1 []) =
    Ok ["Move out"; "Move out"; "Briefing 2 Enlistees"; "Briefing 1 Squads";
        "Move out"; "Move out"; "Briefing 2 Enlistees"; "Briefing 1 Squads";
        "Briefing 2 Platoons"].
Proof. reflexivity. Qed.

(** * Further properties of package factoryMethod *)

Section PhoneSequences.
Import factoryMethod.

Lemma call_TurnOn i out :
  call DoTurnOn i out = (with_phone i (TurnOn (phone_of i) out).1, (TurnOn (phone_of i) out).2).
Proof. simpl. unfold IPhone_TurnOn. by destruct (TurnOn (phone_of i) out). Qed.

Lemma call_TurnOff i out :
  call DoTurnOff i out = (with_phone i (TurnOff (phone_of i) out).1, (TurnOff (phone_of i) out).2).
Proof. simpl. unfold IPhone_TurnOff. by destruct (TurnOff (phone_of i) out). Qed.

Lemma phone_of_with_phone i p : phone_of (with_phone i p) = p.
Proof. by destruct i. Qed.

Lemma with_phone_phone_of i : with_phone i (phone_of i) = i.
Proof. by destruct i as [[p] | [p]]. Qed.

(** One call: either nothing happens, or the status becomes the target of
    the call and its notification is written. *)
Lemma call_cases c i out :
  let st := match c with DoTurnOn => "on" | DoTurnOff => "off" end in
  let line := match c with DoTurnOn => "Turning phone on" | DoTurnOff => "Turning phone off" end in
  (status (phone_of i) = st ∧ call c i out = (i, out))
  ∨ (status (phone_of i) ≠ st
     ∧ status (phone_of (call c i out).1) = st
     ∧ (call c i out).2 = out ++ [line]).
Proof.
  destruct c; simpl.
  - unfold IPhone_TurnOn.
    destruct (decide (status (phone_of i) = "on")) as [E | E].
    + left. split; [done|]. rewrite (TurnOn_on _ _ E). by rewrite with_phone_phone_of.
    + right. split; [done|]. rewrite (TurnOn_not_on _ _ E). simpl.
      by rewrite phone_of_with_phone.
  - unfold IPhone_TurnOff.
    destruct (decide (status (phone_of i) = "off")) as [E | E].
    + left. split; [done|]. rewrite (TurnOff_off _ _ E). by rewrite with_phone_phone_of.
    + right. split; [done|]. rewrite (TurnOff_not_off _ _ E). simpl.
      by rewrite phone_of_with_phone.
Qed.

Lemma call_status c i out :
  status (phone_of (call c i out).1) =
    match c with DoTurnOn => "on" | DoTurnOff => "off" end.
Proof.
  destruct (call_cases c i out) as [[E ->] | (_ & E & _)]; [|done].
  by destruct c.
Qed.

Lemma calls_cons c cs i out :
  calls (c :: cs) i out = calls cs (call c i out).1 (call c i out).2.
Proof. simpl. by destruct (call c i out). Qed.

Lemma calls_app cs1 cs2 i out :
  calls (cs1 ++ cs2) i out = calls cs2 (calls cs1 i out).1 (calls cs1 i out).2.
Proof.
  revert i out. induction cs1 as [|c cs1 IH]; intros i out; [done|].
  rewrite <- app_comm_cons, !calls_cons. apply IH.
Qed.

(** X1: after a sequence of toggles, the status is the one the last call
    asks for, whatever the status was before and whatever came earlier. *)
Theorem last_toggle_wins (cs : list toggle) (c : toggle) (i : IPhone) (out : stdout) :
  last cs = Some c →
  status (phone_of (calls cs i out).1) =
    match c with DoTurnOn => "on" | DoTurnOff => "off" end.
Proof.
  intros Hl. apply last_Some in Hl as [cs' ->].
  rewrite calls_app, calls_cons. simpl. apply call_status.
Qed.

Lemma last_toggle_wins_witness :
  status (phone_of (calls [DoTurnOn; DoTurnOn; DoTurnOff; DoTurnOn] NewGoogle []).1) = "on".
Proof.
  apply (last_toggle_wins [DoTurnOn; DoTurnOn; DoTurnOff; DoTurnOn] DoTurnOn NewGoogle []).
  reflexivity.
Defined.

(** X2: a sequence of toggles only appends to the output, at most one line
    per call, each line one of the two notifications; no two consecutive
    lines are the same, and the first line is not the notification of the
    status the phone already had: on a fresh phone, which is off, the
    lines are "Turning phone on", "Turning phone off", ... in alternation. *)
Theorem toggle_notifications_alternate (cs : list toggle) (i : IPhone) (out : stdout) :
  ∃ l : list string,
    (calls cs i out).2 = out ++ l
    ∧ length l ≤ length cs
    ∧ Forall (λ x, x = "Turning phone on" ∨ x = "Turning phone off") l
    ∧ (∀ j x y, l !! j = Some x → l !! S j = Some y → x ≠ y)
    ∧ (status (phone_of i) = "on" → head l ≠ Some "Turning phone on")
    ∧ (status (phone_of i) = "off" → head l ≠ Some "Turning phone off").
Proof.
  revert i out. induction cs as [|c cs IH]; intros i out.
  { exists []. simpl. rewrite app_nil_r. repeat split; try done. }
  rewrite calls_cons.
  destruct (call_cases c i out) as [[E ->] | (Hne & E & Hout)].
  - simpl. destruct (IH i out) as (l & Hl & Hlen & Hall & Halt & Hon & Hoff).
    exists l. repeat split; try done. lia.
  - destruct (IH (call c i out).1 (call c i out).2) as (l & Hl & Hlen & Hall & Halt & Hon & Hoff).
    eexists (_ :: l). rewrite Hl, Hout, <- app_assoc. simpl.
    split; [reflexivity|]. split; [lia|]. split; [|split; [|split]].
    + constructor; [destruct c; auto | done].
    + intros [|j] x y Hx Hy; simpl in *; simplify_eq.
      * destruct c, l as [|z l]; simpl in *; simplify_eq; intros Heq.
        -- apply (Hon E). by rewrite Heq.
        -- apply (Hoff E). by rewrite Heq.
      * by eapply Halt.
    + intros Hst. destruct c; [done|]. by intros ?.
    + intros Hst. destruct c; [|done]. by intros ?.
Qed.

End PhoneSequences.

(** * Further properties of package composite *)

(** ** How calls of Add compose *)

(** X3: two calls of [Add] on one receiver are one call with the arguments
    of both, first those of the first call; this holds for the four
    containers, for the leaf (where both sides do nothing), and when the
    receiver holds no object (both sides fail). *)
Theorem Add_Add_same_receiver (h : heap) (s : Soldier) (xs ys : list Soldier) :
  (let* h1 := Add s xs h in Add s ys h1) = Add s (xs ++ ys) h.
Proof.
  destruct (h !! s) as [o|] eqn:E; [|unfold Add; by rewrite E].
  destruct (object_cases o) as [[name ->] | (k & name & cs & ->)].
  - rewrite !(Add_Enlisted _ _ _ _ E). simpl. by rewrite (Add_Enlisted _ _ _ _ E).
  - rewrite !(Add_container _ _ _ _ _ _ E). simpl.
    assert (E' : <[s := container k name (cs ++ xs)]> h !! s
                 = Some (container k name (cs ++ xs))).
    { apply list_lookup_insert_eq. by eapply lookup_lt_Some. }
    rewrite (Add_container _ _ _ _ _ _ E').
    by rewrite list_insert_insert_eq, app_assoc.
Qed.

(** X4: calls of [Add] on two different receivers can be exchanged: the
    heap afterwards, or the failure, is the same in either order. *)
Theorem Add_Add_commute (h : heap) (s1 s2 : Soldier) (xs ys : list Soldier) :
  s1 ≠ s2 →
  (let* h1 := Add s1 xs h in Add s2 ys h1) = (let* h2 := Add s2 ys h in Add s1 xs h2).
Proof.
  intros Hne.
  assert (Hfail : ∀ (h : heap) s s' zs zs',
            h !! s = None → s ≠ s' →
            (let* h' := Add s' zs' h in Add s zs h') = Panic).
  { clear. intros h s s' zs zs' E Hne.
    destruct (Add s' zs' h) as [h'| |] eqn:EA; [|done|].
    - simpl. unfold Add at 1. by rewrite (Add_other _ _ _ _ _ EA Hne), E.
    - unfold Add in EA. by destruct (h !! s') as [[]|]. }
  destruct (h !! s1) as [o1|] eqn:E1.
  2:{ rewrite (Hfail h s1 s2 xs ys E1 Hne). unfold Add at 1. by rewrite E1. }
  destruct (h !! s2) as [o2|] eqn:E2.
  2:{ rewrite (Hfail h s2 s1 ys xs E2) by done. unfold Add at 1. by rewrite E2. }
  destruct (Add s1 xs h) as [h1| |] eqn:EA1;
    [| unfold Add in EA1; rewrite E1 in EA1; by destruct o1 ..].
  destruct (Add s2 ys h) as [h2| |] eqn:EA2;
    [| unfold Add in EA2; rewrite E2 in EA2; by destruct o2 ..].
  simpl.
  assert (E2' : h1 !! s2 = Some o2) by (by rewrite (Add_other _ _ _ _ s2 EA1)).
  assert (E1' : h2 !! s1 = Some o1) by (by rewrite (Add_other _ _ _ _ s1 EA2)).
  destruct (object_cases o1) as [[n1 ->] | (k1 & n1 & cs1 & ->)];
    destruct (object_cases o2) as [[n2 ->] | (k2 & n2 & cs2 & ->)].
  - rewrite (Add_Enlisted _ _ _ _ E1) in EA1. rewrite (Add_Enlisted _ _ _ _ E2) in EA2.
    simplify_eq. by rewrite (Add_Enlisted _ _ _ _ E1), (Add_Enlisted _ _ _ _ E2).
  - rewrite (Add_Enlisted _ _ _ _ E1) in EA1. simplify_eq.
    rewrite (Add_Enlisted _ _ _ _ E1'). by rewrite EA2.
  - rewrite (Add_Enlisted _ _ _ _ E2) in EA2. simplify_eq.
    rewrite (Add_Enlisted _ _ _ _ E2'). by rewrite EA1.
  - rewrite (Add_container _ _ _ _ _ _ E2'), (Add_container _ _ _ _ _ _ E1').
    rewrite (Add_container _ _ _ _ _ _ E1) in EA1.
    rewrite (Add_container _ _ _ _ _ _ E2) in EA2. simplify_eq.
    by rewrite list_insert_insert_ne.
Qed.

Lemma Add_Add_commute_witness :
  (let* h1 := Add 0 [2] [Squad "alpha" []; Squad "bravo" []; Enlisted "Smith"] in
   Add 1 [2] h1)
  = (let* h2 := Add 1 [2] [Squad "alpha" []; Squad "bravo" []; Enlisted "Smith"] in
     Add 0 [2] h2).
Proof.
  apply (Add_Add_commute [Squad "alpha" []; Squad "bravo" []; Enlisted "Smith"] 0 1 [2] [2]).
  lia.
Defined.

(** ** Nothing is ever removed *)

Lemma alloc_child_at_old (h : heap) o p i c :
  child_at h p i = Some c → child_at (h ++ [o]) p i = Some c.
Proof.
  intros Hc. apply child_at_Some in Hc as (o' & E & Hc).
  apply child_at_Some. exists o'. split; [|done]. by apply lookup_app_l_Some.
Qed.

Lemma Add_child_at_old (h h' : heap) s xs p i c :
  Add s xs h = Ok h' → child_at h p i = Some c → child_at h' p i = Some c.
Proof.
  intros HAdd Hc. destruct (decide (p = s)) as [-> | Hp].
  - apply child_at_Some in Hc as (o & E & Hc).
    destruct (object_cases o) as [[name ->] | (k & name & cs & ->)]; [done|].
    rewrite (Add_container _ _ _ _ _ _ E) in HAdd. simplify_eq.
    apply child_at_Some. eexists. split.
    + apply list_lookup_insert_eq. by eapply lookup_lt_Some.
    + rewrite children_container in *. by apply lookup_app_l_Some.
  - unfold child_at in *. by rewrite (Add_other _ _ _ _ p HAdd Hp).
Qed.

Lemma ancestor_mono (h h' : heap) a b :
  (∀ p i c, child_at h p i = Some c → child_at h' p i = Some c) →
  ancestor h a b → ancestor h' a b.
Proof.
  intros Hmono H. induction H as [a b [i Hi] | a c b [i Hi] _ IH].
  - apply tc_once. exists i. by apply Hmono.
  - eapply tc_l; [|done]. exists i. by apply Hmono.
Qed.

(** X5: there is no removal: after a constructor or an [Add], every entry
    of every children sequence is where it was, with the node it held. *)
Theorem children_never_removed (h : heap) (p c : Soldier) (i : nat) :
  child_at h p i = Some c →
  (∀ k name, child_at (New k name h).2 p i = Some c)
  ∧ (∀ name, child_at (NewEnlisted name h).2 p i = Some c)
  ∧ (∀ s xs h', Add s xs h = Ok h' → child_at h' p i = Some c).
Proof.
  intros Hc. split; [|split].
  - intros k name. rewrite New_eq. simpl. by apply alloc_child_at_old.
  - intros name. by apply alloc_child_at_old.
  - intros s xs h' HAdd. by eapply Add_child_at_old.
Qed.

Lemma children_never_removed_witness :
  let h := [Squad "alpha" [1]; Enlisted "Smith"] in
  (∀ k name, child_at (New k name h).2 0 0 = Some 1)
  ∧ (∀ name, child_at (NewEnlisted name h).2 0 0 = Some 1)
  ∧ (∀ s xs h', Add s xs h = Ok h' → child_at h' 0 0 = Some 1).
Proof.
  intros h. apply (children_never_removed h 0 1 0). reflexivity.
Defined.

Lemma closed_alloc (h : heap) o : children o = [] → closed h → closed (h ++ [o]).
Proof.
  intros Ho Hcl p c Hc. apply alloc_child in Hc; [|done]. apply Hcl in Hc.
  rewrite length_app. simpl. lia.
Qed.

(** X6: a cycle cannot be undone: on a node that is its own ancestor,
    where [Brief] never returns, [Brief] still never returns after any
    further constructor call or [Add]. *)
Theorem cycle_persists (h : heap) (a : Soldier) (orders : string) :
  reachable h → ancestor h a a →
  diverges h orders a
  ∧ (∀ k name, diverges (New k name h).2 orders a)
  ∧ (∀ name, diverges (NewEnlisted name h).2 orders a)
  ∧ (∀ s xs h',
       s < length h → Forall (λ x, x < length h) xs → Add s xs h = Ok h' →
       diverges h' orders a).
Proof.
  intros Hreach Ha. pose proof (reachable_closed h Hreach) as Hcl.
  split; [by apply Brief_cycle_diverges|]. split; [|split].
  - intros k name. rewrite New_eq. simpl. apply Brief_cycle_diverges.
    + apply closed_alloc; [apply children_container | done].
    + eapply ancestor_mono; [|done]. intros ? ? ?. apply alloc_child_at_old.
  - intros name. apply Brief_cycle_diverges.
    + by apply closed_alloc.
    + eapply ancestor_mono; [|done]. intros ? ? ?. apply alloc_child_at_old.
  - intros s xs h' Hs Hxs HAdd. apply Brief_cycle_diverges.
    + by eapply Add_closed.
    + eapply ancestor_mono; [|done]. intros ? ? ?. by eapply Add_child_at_old.
Qed.

Lemma cycle_persists_witness :
  let h := [Brigade "A" [1]; Platoon "1" [0]] in
  diverges h "Move out" 0
  ∧ (∀ k name, diverges (New k name h).2 "Move out" 0)
  ∧ (∀ name, diverges (NewEnlisted name h).2 "Move out" 0)
  ∧ (∀ s xs h',
       s < length h → Forall (λ x, x < length h) xs → Add s xs h = Ok h' →
       diverges h' "Move out" 0).
Proof.
  intros h. apply (cycle_persists h 0 "Move out").
  - exact added_to_each_other_reachable.
  - exact added_to_each_other_cycle.
Defined.

(** ** What a briefing depends on *)

Lemma range_ext (f g : Soldier → stdout → result stdout) cs out :
  (∀ c, c ∈ cs → ∀ out', f c out' = g c out') → range f cs out = range g cs out.
Proof.
  revert out. induction cs as [|c cs IH]; intros out H; [done|].
  simpl. rewrite (H c) by (apply elem_of_cons; by left).
  destruct (g c out); simpl; try done.
  apply IH. intros c' Hc'. apply H. apply elem_of_cons. by right.
Qed.

Lemma range_frame (f : Soldier → stdout → result stdout) cs out :
  (∀ c out', f c out' = let* l := f c [] in Ok (out' ++ l)) →
  range f cs out = let* l := range f cs [] in Ok (out ++ l).
Proof.
  intros Hf. revert out.
  induction cs as [|c cs IH]; intros out; simpl; [by rewrite app_nil_r|].
  rewrite (Hf c out). destruct (f c []) as [l1| |]; simpl; [|done|done].
  rewrite IH, (IH l1).
  destruct (range f cs []) as [l2| |]; simpl; [|done|done].
  by rewrite app_assoc.
Qed.

(** The lines of a call do not depend on what was written before. *)
Lemma Brief_frame (h : heap) orders depth s out :
  Brief depth h orders s out = let* l := Brief depth h orders s [] in Ok (out ++ l).
Proof.
  revert s out. induction depth as [|d IH]; intros s out; [done|].
  destruct (h !! s) as [o|] eqn:E; [|simpl; by rewrite E].
  destruct (object_cases o) as [[name ->] | (k & name & cs & ->)].
  - by rewrite !(Brief_Enlisted _ _ _ _ _ _ E).
  - rewrite !(Brief_container _ _ _ _ _ _ _ _ E).
    rewrite (range_frame _ cs out) by apply IH.
    destruct (range (Brief d h orders) cs []) as [l| |]; simpl; [|done|done].
    by rewrite app_assoc.
Qed.

(** X7: [Brief] keeps what was written and appends lines that do not
    depend on it, and it leaves the structure as it was: two briefings in
    a row, of the same node or of two, with the same order or not, write
    the lines of the first followed by the lines of the second. *)
Theorem Brief_then_Brief
    (h : heap) (d1 d2 : nat) (o1 o2 : string) (s1 s2 : Soldier)
    (l1 l2 : list string) (out : stdout) :
  Brief d1 h o1 s1 [] = Ok l1 →
  Brief d2 h o2 s2 [] = Ok l2 →
  Brief d1 h o1 s1 out = Ok (out ++ l1)
  ∧ (let* out' := Brief d1 h o1 s1 out in Brief d2 h o2 s2 out') = Ok (out ++ l1 ++ l2).
Proof.
  intros H1 H2.
  assert (E1 : Brief d1 h o1 s1 out = Ok (out ++ l1)) by (by rewrite Brief_frame, H1).
  split; [done|]. rewrite E1. simpl. rewrite Brief_frame, H2. simpl.
  by rewrite app_assoc.
Qed.

Lemma Brief_then_Brief_witness :
  let h := [Squad "alpha" [1; 2]; Enlisted "Smith"; Enlisted "Jones"] in
  Brief 2 h "Move out" 0 ["earlier"] =
    Ok (["earlier"] ++ ["Move out"; "Move out"; "Briefing 2 Enlistees"])
  ∧ (let* out' := Brief 2 h "Move out" 0 ["earlier"] in Brief 1 h "Halt" 2 out') =
      Ok (["earlier"] ++ ["Move out"; "Move out"; "Briefing 2 Enlistees"] ++ ["Halt"]).
Proof.
  intros h.
  apply (Brief_then_Brief h 2 1 "Move out" "Halt" 0 2
           ["Move out"; "Move out"; "Briefing 2 Enlistees"] ["Halt"] ["earlier"]);
    reflexivity.
Defined.

(** X8: the names given to the constructors are stored and never read:
    with every node renamed, [Brief] does the same and writes the same. *)
Theorem Brief_ignores_names
    (f : string → string) (h : heap) (depth : nat) (orders : string)
    (s : Soldier) (out : stdout) :
  Brief depth (rename f <$> h) orders s out = Brief depth h orders s out.
Proof.
  revert s out. induction depth as [|d IH]; intros s out; [done|].
  assert (E' : (rename f <$> h) !! s = rename f <$> h !! s)
    by apply list_lookup_fmap.
  assert (HN : ∀ h0 : heap, h0 !! s = None → Brief (S d) h0 orders s out = Panic).
  { intros h0 E0. simpl. by rewrite E0. }
  destruct (h !! s) as [o|] eqn:E; rewrite ?E in E'; simpl in E';
    [|by rewrite (HN _ E'), (HN _ E)].
  destruct (object_cases o) as [[name ->] | (k & name & cs & ->)].
  - by rewrite (Brief_Enlisted _ _ _ _ _ _ E), (Brief_Enlisted _ _ _ _ _ _ E').
  - assert (E'' : (rename f <$> h) !! s = Some (container k (f name) cs))
      by (rewrite E'; by destruct k).
    rewrite (Brief_container _ _ _ _ _ _ _ _ E), (Brief_container _ _ _ _ _ _ _ _ E'').
    rewrite (range_ext (Brief d (rename f <$> h) orders) (Brief d h orders)); [done|].
    intros c _ out'. apply IH.
Qed.

Lemma child_of_container (h : heap) s k name cs c :
  h !! s = Some (container k name cs) → c ∈ cs → child h s c.
Proof.
  intros E Hc. apply list_elem_of_lookup_1 in Hc as [i Hi]. exists i.
  apply child_at_Some. eexists. split; [done|]. by rewrite children_container.
Qed.

Lemma Brief_alloc (h ext : heap) orders depth s out :
  closed h → s < length h →
  Brief depth (h ++ ext) orders s out = Brief depth h orders s out.
Proof.
  intros Hcl. revert s out. induction depth as [|d IH]; intros s out Hs; [done|].
  destruct (lookup_lt_is_Some_2 h s Hs) as [o E].
  assert (E' : (h ++ ext) !! s = Some o) by (by apply lookup_app_l_Some).
  destruct (object_cases o) as [[name ->] | (k & name & cs & ->)].
  - by rewrite (Brief_Enlisted _ _ _ _ _ _ E), (Brief_Enlisted _ _ _ _ _ _ E').
  - rewrite (Brief_container _ _ _ _ _ _ _ _ E), (Brief_container _ _ _ _ _ _ _ _ E').
    rewrite (range_ext (Brief d (h ++ ext) orders) (Brief d h orders)); [done|].
    intros c Hc out'. apply IH. apply (Hcl s). by eapply child_of_container.
Qed.

(** X9: constructing further nodes changes no briefing: whatever [Brief]
    did on a node before a constructor call, it does after it. *)
Theorem Brief_unchanged_by_constructors
    (h : heap) (depth : nat) (orders : string) (s : Soldier) (out : stdout) :
  reachable h → s < length h →
  (∀ k name, Brief depth (New k name h).2 orders s out = Brief depth h orders s out)
  ∧ (∀ name, Brief depth (NewEnlisted name h).2 orders s out = Brief depth h orders s out).
Proof.
  intros Hreach Hs. pose proof (reachable_closed h Hreach) as Hcl. split.
  - intros k name. rewrite New_eq. simpl. by apply Brief_alloc.
  - intros name. by apply Brief_alloc.
Qed.

Lemma Brief_unchanged_by_constructors_witness :
  let h := [Division "1st" [1]; Brigade "A" [2]; Platoon "1" [3];
            Squad "alpha" [4; 5]; Enlisted "Smith"; Enlisted "Jones"] in
  (∀ k name, Brief 5 (New k name h).2 "Move out" 0 [] = Brief 5 h "Move out" 0 [])
  ∧ (∀ name, Brief 5 (NewEnlisted name h).2 "Move out" 0 [] = Brief 5 h "Move out" 0 []).
Proof.
  intros h. apply (Brief_unchanged_by_constructors h 5 "Move out" 0 []).
  - exact scenario_heap_reachable.
  - simpl. lia.
Defined.

Lemma Brief_Add_frame (h h' : heap) r xs orders depth s out :
  Add r xs h = Ok h' → ¬ reaches h s r →
  Brief depth h' orders s out = Brief depth h orders s out.
Proof.
  intros HAdd. revert s out. induction depth as [|d IH]; intros s out Hs; [done|].
  assert (Hne : s ≠ r) by (intros ->; apply Hs; by left).
  pose proof (Add_other _ _ _ _ s HAdd Hne) as E'.
  destruct (h !! s) as [o|] eqn:E; [|simpl; by rewrite E', E].
  destruct (object_cases o) as [[name ->] | (k & name & cs & ->)].
  - by rewrite (Brief_Enlisted _ _ _ _ _ _ E), (Brief_Enlisted _ _ _ _ _ _ E').
  - rewrite (Brief_container _ _ _ _ _ _ _ _ E), (Brief_container _ _ _ _ _ _ _ _ E').
    rewrite (range_ext (Brief d h' orders) (Brief d h orders)); [done|].
    intros c Hc out'. apply IH. intros Hcr. apply Hs. right.
    pose proof (child_of_container _ _ _ _ _ _ E Hc) as Hch.
    destruct Hcr as [-> | Hcr]; [by apply tc_once | by eapply tc_l].
Qed.

(** X10: [Add] changes the briefing of the receiver and of its ancestors
    only: on a node that is not the receiver and from which the receiver
    cannot be reached, [Brief] does after the call what it did before. *)
Theorem Brief_unchanged_by_Add_elsewhere
    (h h' : heap) (r : Soldier) (xs : list Soldier)
    (depth : nat) (orders : string) (s : Soldier) (out : stdout) :
  Add r xs h = Ok h' →
  s ≠ r → ¬ ancestor h s r →
  Brief depth h' orders s out = Brief depth h orders s out.
Proof.
  intros HAdd Hne Hna. eapply Brief_Add_frame; [done|]. by intros [? | ?].
Qed.

Lemma no_ancestor_of_leaf (h : heap) a b name :
  h !! a = Some (Enlisted name) → ¬ ancestor h a b.
Proof.
  intros E H.
  assert (Hc : ∃ c, child h a c) by (inversion H; eauto).
  destruct Hc as (c & i & Hi). apply child_at_Some in Hi as (o & E' & Hi).
  by simplify_eq.
Qed.

Lemma Brief_unchanged_by_Add_elsewhere_witness :
  Brief 1 [Squad "alpha" [1; 1]; Enlisted "Smith"] "Move out" 1 [] =
  Brief 1 [Squad "alpha" [1]; Enlisted "Smith"] "Move out" 1 [].
Proof.
  apply (Brief_unchanged_by_Add_elsewhere
           [Squad "alpha" [1]; Enlisted "Smith"] [Squad "alpha" [1; 1]; Enlisted "Smith"]
           0 [1] 1 "Move out" 1 []).
  - reflexivity.
  - lia.
  - by apply (no_ancestor_of_leaf _ 1 0 "Smith").
Defined.

(** X11: [Add] extends the broadcast of the receiver: when the receiver
    cannot be reached from its children or from the added nodes, its
    briefing, which wrote the lines of its children and its summary,
    writes after the call the lines of its children, then the lines of the
    added nodes, each as [Brief] wrote them before the call, and then the
    summary with the new count. *)
Theorem Add_extends_broadcast
    (h h' : heap) (s : Soldier) (k : rank) (name : string) (cs xs : list Soldier)
    (depth : nat) (orders : string) (o : Soldier → list string) (out : stdout) :
  h !! s = Some (container k name cs) →
  Add s xs h = Ok h' →
  Forall (λ c, c ≠ s ∧ ¬ ancestor h c s
               ∧ ∀ out', Brief depth h orders c out' = Ok (out' ++ o c)) (cs ++ xs) →
  Brief (S depth) h orders s out =
    Ok (out ++ concat (o <$> cs) ++ [summary k (length cs)])
  ∧ Brief (S depth) h' orders s out =
      Ok (out ++ concat (o <$> cs) ++ concat (o <$> xs)
              ++ [summary k (length cs + length xs)]).
Proof.
  intros E HAdd Hall. split.
  - rewrite (Brief_container _ _ _ _ _ _ _ _ E).
    rewrite (range_concat _ cs (o <$> cs)); [simpl; by rewrite <- app_assoc|].
    apply Forall2_fmap_r, Forall_Forall2_diag.
    apply Forall_app in Hall as [Hcs _].
    eapply Forall_impl; [exact Hcs|]. by intros c (_ & _ & Hc).
  - assert (E' : h' !! s = Some (container k name (cs ++ xs))).
    { rewrite (Add_container _ _ _ _ _ xs E) in HAdd. simplify_eq.
      apply list_lookup_insert_eq. by eapply lookup_lt_Some. }
    rewrite (Brief_container _ _ _ _ _ _ _ _ E').
    rewrite (range_concat _ (cs ++ xs) (o <$> cs ++ xs)).
    + simpl. by rewrite fmap_app, concat_app, length_app, <- !app_assoc.
    + apply Forall2_fmap_r, Forall_Forall2_diag.
      eapply Forall_impl; [exact Hall|]. intros c (Hne & Hna & Hc) out'.
      rewrite (Brief_Add_frame h h' s xs orders depth c out' HAdd);
        [done | by intros [? | ?]].
Qed.

Lemma Add_extends_broadcast_witness :
  let h := [Squad "alpha" [1]; Enlisted "Smith"; Enlisted "Jones"] in
  let h' := [Squad "alpha" [1; 2; 1]; Enlisted "Smith"; Enlisted "Jones"] in
  let o := λ _ : Soldier, ["Move out"] in
  Brief 2 h "Move out" 0 [] =
    Ok ([] ++ concat (o <$> [1]) ++ [summary RSquad (length [1])])
  ∧ Brief 2 h' "Move out" 0 [] =
      Ok ([] ++ concat (o <$> [1]) ++ concat (o <$> [2; 1])
              ++ [summary RSquad (length [1] + length [2; 1])]).
Proof.
  intros h h' o.
  apply (Add_extends_broadcast h h' 0 RSquad "alpha" [1] [2; 1] 1 "Move out" o []).
  - reflexivity.
  - reflexivity.
  - repeat constructor; try lia; try done.
    + by apply (no_ancestor_of_leaf _ 1 0 "Smith").
    + by apply (no_ancestor_of_leaf _ 2 0 "Jones").
    + by apply (no_ancestor_of_leaf _ 1 0 "Smith").
Defined.

(** ** When a briefing returns *)

Section ReturnsOrNot.
Context (h : heap).

Lemma reaches_child s a c : reaches h s a → child h a c → reaches h s c.
Proof.
  intros [-> | Hsa] Hc; right; [by apply tc_once | by eapply tc_r].
Qed.

(** A node with no cycle below it unfolds to a tree. *)
Lemma repr_of_no_cycle_below s :
  closed h → s < length h →
  (∀ c, reaches h s c → ¬ ancestor h c c) →
  ∃ t, repr h s t.
Proof.
  intros Hcl Hs Hno.
  set (R := λ a b, reaches h s a ∧ child h a b).
  assert (HR : ∀ a b, tc R a b → ancestor h a b ∧ reaches h s a).
  { induction 1 as [a b [Ha Hc] | a c b [Ha Hc] _ [IH _]].
    - split; [by apply tc_once | done].
    - split; [by eapply tc_l | done]. }
  assert (Hsn : sn R s).
  { apply tc_finite_sn.
    - intros a Ha. apply HR in Ha as [Ha Hsa]. by eapply Hno.
    - exists (seq 0 (length h)). intros y Hy. apply HR in Hy as [Hy _].
      apply elem_of_seq. split; [lia|]. simpl. by eapply ancestor_allocated. }
  assert (Hgen : ∀ a, sn R a → a < length h → reaches h s a → ∃ t, repr h a t).
  { clear Hsn. induction 1 as [a _ IH]. intros Ha Hsa.
    destruct (lookup_lt_is_Some_2 h a Ha) as [o E].
    destruct (object_cases o) as [[name ->] | (k & name & cs & ->)].
    - exists (Leaf name). by constructor.
    - destruct (Forall_repr_exists h cs) as [ts Hts].
      + apply Forall_forall. intros c Hc.
        pose proof (child_of_container _ _ _ _ _ _ E Hc) as Hch.
        apply IH; [by split | by eapply Hcl | by eapply reaches_child].
      + exists (Node k name ts). by econstructor. }
  apply Hgen; [done | done | by left].
Qed.

End ReturnsOrNot.

(** X12: on a structure built through the public calls, [Brief] on a
    node returns exactly when no node that is its own ancestor can be
    reached from it; otherwise it never returns, for no bound on the
    stack and no order string. *)
Theorem Brief_returns_iff_no_cycle_below (h : heap) (s : Soldier) (orders : string) :
  reachable h → s < length h →
  ((∃ depth out r, Brief depth h orders s out = Ok r)
   ↔ ¬ ∃ c, reaches h s c ∧ ancestor h c c)
  ∧ ((∃ c, reaches h s c ∧ ancestor h c c) → diverges h orders s).
Proof.
  intros Hreach Hs. pose proof (reachable_closed h Hreach) as Hcl.
  assert (Hno : (∃ c, reaches h s c ∧ ancestor h c c) →
                ∀ depth out r, Brief depth h orders s out ≠ Ok r).
  { intros (c & [-> | Hsc] & Hcc) depth out r HB.
    - by eapply Brief_cycle_not_Ok.
    - destruct (Brief_Ok_descendant _ _ _ _ Hsc _ _ _ HB) as (d & o' & r' & _ & HB').
      by eapply Brief_cycle_not_Ok. }
  split; [split|].
  - intros (depth & out & r & HB) Hc. by eapply Hno.
  - intros Hc. destruct (repr_of_no_cycle_below h s Hcl Hs) as [t Ht].
    + intros c Hsc Hcc. apply Hc. eauto.
    + exists (levels t), [], (lines orders t).
      by apply (Brief_repr h orders t s (levels t) []).
  - intros Hc depth out. specialize (Hno Hc depth out).
    pose proof (Brief_not_Panic h orders depth s out Hcl Hs) as HP.
    destruct (Brief depth h orders s out) as [r| |]; [by destruct (Hno r) | done | done].
Qed.

Lemma Brief_returns_iff_no_cycle_below_witness :
  let h := [Brigade "A" [1]; Platoon "1" [0]] in
  ((∃ depth out r, Brief depth h "Move out" 1 out = Ok r)
   ↔ ¬ ∃ c, reaches h 1 c ∧ ancestor h c c)
  ∧ ((∃ c, reaches h 1 c ∧ ancestor h c c) → diverges h "Move out" 1).
Proof.
  intros h. apply (Brief_returns_iff_no_cycle_below h 1 "Move out").
  - exact added_to_each_other_reachable.
  - simpl. lia.
Defined.

(** ** How deep a briefing goes *)

Section StackBound.
Context (h : heap).

Lemma chain_descendants s p x : chain h s p → x ∈ p → reaches h s x.
Proof.
  induction 1 as [s | s c p Hc _ IH]; intros Hx.
  - apply list_elem_of_singleton in Hx as ->. by left.
  - apply elem_of_cons in Hx as [-> | Hx]; [by left|]. right.
    destruct (IH Hx) as [-> | Hcx]; [by apply tc_once | by eapply tc_l].
Qed.

Lemma chain_NoDup s p : acyclic h → chain h s p → NoDup p.
Proof.
  intros Hac. induction 1 as [s | s c p Hc Hp IH].
  - apply NoDup_singleton.
  - constructor; [|done]. intros Hs.
    apply (Hac s). destruct (chain_descendants _ _ _ Hp Hs) as [-> | Hcs].
    + by apply tc_once.
    + by eapply tc_l.
Qed.

Lemma chain_allocated s p :
  closed h → s < length h → chain h s p → Forall (λ x, x < length h) p.
Proof.
  intros Hcl Hs. induction 1 as [s | s c p Hc _ IH].
  - by repeat constructor.
  - constructor; [done|]. apply IH. by eapply Hcl.
Qed.

Lemma levels_attained ts :
  ts ≠ [] → ∃ t, t ∈ ts ∧ levels t = foldr (λ t' m, levels t' `max` m) 0 ts.
Proof.
  induction ts as [|t ts IH]; [done|]. intros _. simpl.
  destruct ts as [|t' ts].
  - exists t. split; [apply elem_of_cons; by left | simpl; lia].
  - destruct IH as (t0 & Ht0 & E); [done|].
    destruct (decide (levels t0 ≤ levels t)).
    + exists t. split; [apply elem_of_cons; by left | lia].
    + exists t0. split; [apply elem_of_cons; by right | lia].
Qed.

(** The deepest nesting of calls follows a chain of child pointers. *)
Lemma repr_chain t : ∀ s, repr h s t → ∃ p, chain h s p ∧ length p = levels t.
Proof.
  induction t as [name | k name ts IH] using tree_ind_Forall; intros s Hr.
  - exists [s]. split; [constructor | done].
  - inversion Hr as [| s' k' name' cs ts' Hs Hcs]; subst.
    destruct ts as [|t0 ts0] eqn:Ets.
    { exists [s]. split; [constructor | done]. }
    rewrite <- Ets in *.
    destruct (levels_attained ts) as (t & Ht & Hlev); [by rewrite Ets|].
    apply list_elem_of_lookup_1 in Ht as [i Hi].
    destruct (Forall2_lookup_r _ _ _ _ _ Hcs Hi) as (c & Hci & Hct).
    destruct (proj1 (Forall_lookup _ _) IH i t Hi c Hct) as (p & Hp & Hlen).
    exists (s :: p). split.
    + eapply chain_step; [|done]. eapply child_of_container; [done|].
      by eapply list_elem_of_lookup_2.
    + simpl. by rewrite Hlen, Hlev.
Qed.

Lemma repr_levels_le s t :
  closed h → acyclic h → s < length h → repr h s t → levels t ≤ length h.
Proof.
  intros Hcl Hac Hs Hr. destruct (repr_chain t s Hr) as (p & Hp & <-).
  rewrite <- (length_seq (length h) 0). apply submseteq_length, NoDup_submseteq.
  - by eapply chain_NoDup.
  - intros x Hx. apply elem_of_seq. split; [lia|]. simpl.
    by apply (proj1 (Forall_forall _ _) (chain_allocated s p Hcl Hs Hp)).
Qed.

End StackBound.

(** X13: on a structure built through the public calls in which no node
    is its own ancestor, the nesting of [Brief] calls never exceeds the
    number of nodes constructed so far: with room for that many calls,
    [Brief] returns on every node. *)
Theorem Brief_depth_at_most_nodes
    (h : heap) (s : Soldier) (orders : string) (out : stdout) :
  reachable h → acyclic h → s < length h →
  ∃ l, Brief (length h) h orders s out = Ok (out ++ l).
Proof.
  intros Hreach Hac Hs. pose proof (reachable_closed h Hreach) as Hcl.
  destruct (acyclic_repr h s Hcl Hac Hs) as [t Ht].
  exists (lines orders t). apply Brief_repr; [done|]. by eapply repr_levels_le.
Qed.

Lemma Brief_depth_at_most_nodes_witness :
  let h := [Division "1st" [1]; Brigade "A" [2]; Platoon "1" [3];
            Squad "alpha" [4; 5]; Enlisted "Smith"; Enlisted "Jones"] in
  ∃ l, Brief (length h) h "Move out" 0 [] = Ok ([] ++ l).
Proof.
  intros h. apply (Brief_depth_at_most_nodes h 0 "Move out" []).
  - exact scenario_heap_reachable.
  - exact scenario_heap_acyclic.
  - simpl. lia.
Defined.

(** ** How much a briefing writes *)

Lemma length_lines orders t : length (lines orders t) = size t.
Proof.
  induction t as [name | k name ts IH] using tree_ind_Forall; [done|].
  rewrite lines_Node, length_app.
  change (size (Node k name ts)) with (S (foldr (λ t' n, size t' + n) 0 ts)).
  change (length [summary k (length ts)]) with 1.
  rewrite Nat.add_1_r. f_equal.
  induction IH as [|t ts Ht _ IHts]; [done|].
  rewrite fmap_cons. cbn [concat foldr]. by rewrite length_app, Ht, IHts.
Qed.

(** X14: on a structure that unfolds to a tree, [Brief] writes one line
    for each node of the tree, no more and no less. *)
Theorem Brief_one_line_per_node
    (h : heap) (s : Soldier) (t : tree) (orders : string) (out : stdout) :
  repr h s t →
  ∃ l, Brief (S (height t)) h orders s out = Ok (out ++ l) ∧ length l = size t.
Proof.
  intros Hr. exists (lines orders t). split; [|apply length_lines].
  apply Brief_repr; [done|]. by rewrite levels_height.
Qed.

Lemma Brief_one_line_per_node_witness :
  let h := [Division "1st" [1]; Brigade "A" [2]; Platoon "1" [3];
            Squad "alpha" [4; 5]; Enlisted "Smith"; Enlisted "Jones"] in
  ∃ l, Brief (S (height scenario_tree)) h "Move out" 0 [] = Ok ([] ++ l)
    ∧ length l = size scenario_tree.
Proof.
  intros h.
  exact (Brief_one_line_per_node h 0 scenario_tree "Move out" [] scenario_heap_repr).
Defined.

(** ** What the order string decides *)

Section OrderString.
Context (h : heap) (o1 o2 : string).

Lemma range_alike (f g : Soldier → stdout → result stdout) cs out1 out2 :
  (∀ c out1 out2, alike o1 o2 (Ok out1) (Ok out2) → alike o1 o2 (f c out1) (g c out2)) →
  alike o1 o2 (Ok out1) (Ok out2) → alike o1 o2 (range f cs out1) (range g cs out2).
Proof.
  intros Hfg. revert out1 out2. induction cs as [|c cs IH]; intros out1 out2 Hout; [done|].
  simpl. specialize (Hfg c out1 out2 Hout).
  destruct (f c out1) as [l1| |], (g c out2) as [l2| |]; simpl in *; try done.
  by apply IH.
Qed.

Lemma Brief_alike depth s out1 out2 :
  alike o1 o2 (Ok out1) (Ok out2) →
  alike o1 o2 (Brief depth h o1 s out1) (Brief depth h o2 s out2).
Proof.
  revert s out1 out2. induction depth as [|d IH]; intros s out1 out2 Hout; [done|].
  destruct (h !! s) as [o|] eqn:E; [|simpl; by rewrite E].
  destruct (object_cases o) as [[name ->] | (k & name & cs & ->)].
  - rewrite !(Brief_Enlisted _ _ _ _ _ _ E). simpl in *.
    apply Forall2_app; [done|]. constructor; [by right | constructor].
  - rewrite !(Brief_container _ _ _ _ _ _ _ _ E).
    pose proof (range_alike (Brief d h o1) (Brief d h o2) cs out1 out2 (IH) Hout) as Hr.
    destruct (range (Brief d h o1) cs out1) as [l1| |],
             (range (Brief d h o2) cs out2) as [l2| |]; simpl in *; try done.
    apply Forall2_app; [done|]. constructor; [by left | constructor].
Qed.

End OrderString.

(** X15: the order string is written and never looked at: with another
    order, [Brief] on the same node with the same room returns or not as
    before, and what it writes has as many lines, each the same as
    before or the new order where the old one stood. *)
Theorem Brief_order_only_written
    (h : heap) (o1 o2 : string) (depth : nat) (s : Soldier) (l1 : list string) :
  Brief depth h o1 s [] = Ok l1 →
  ∃ l2, Brief depth h o2 s [] = Ok l2
    ∧ length l2 = length l1
    ∧ Forall2 (λ x y, x = y ∨ (x = o1 ∧ y = o2)) l1 l2.
Proof.
  intros H1.
  assert (H0 : alike o1 o2 (Ok []) (Ok [])) by constructor.
  pose proof (Brief_alike h o1 o2 depth s [] [] H0) as Ha.
  rewrite H1 in Ha. unfold alike in Ha.
  destruct (Brief depth h o2 s []) as [l2| |]; [|done|done].
  exists l2. split; [done|]. split; [|done]. symmetry. by eapply Forall2_length.
Qed.

Lemma Brief_order_only_written_witness :
  let h := [Squad "alpha" [1; 2]; Enlisted "Smith"; Enlisted "Jones"] in
  ∃ l2, Brief 2 h "Halt" 0 [] = Ok l2
    ∧ length l2 = length ["Move out"; "Move out"; "Briefing 2 Enlistees"]
    ∧ Forall2 (λ x y, x = y ∨ (x = "Move out" ∧ y = "Halt"))
        ["Move out"; "Move out"; "Briefing 2 Enlistees"] l2.
Proof.
  intros h.
  apply (Brief_order_only_written h "Move out" "Halt" 2 0
           ["Move out"; "Move out"; "Briefing 2 Enlistees"]).
  reflexivity.
Defined.
